(** * settle-core: dependency graph, state store, planner and executor

    A shallow embedding of the reconciliation core of settle-core
    (package [core]: graph.go, state.go, planner.go, the resource model and
    the executor) and of the apt driver's batch operations, followed by the
    properties of the design document checked against it.

    Conventions of the embedding:
    - Go maps are [gmap]s.  A [for ... range m] loop visits the keys of [m]
      in an order the Go runtime chooses afresh for every loop; each such
      loop takes a [Shuffle] that fixes the order it sees.
    - Go [error] values are their message strings; [fmt.Errorf] with [%s]
      and [%w] is string concatenation.
    - The logger is a pure sink and is left out. *)

From stdpp Require Import gmap strings list fin_maps relations pretty.
From Stdlib Require Import ZArith Lia.

#[local] Set Warnings "-register-all,-clear-no-such-hyp".

Open Scope string_scope.
Open Scope list_scope.
Open Scope Z_scope.

(** ** Resource model (package core, types) *)

Definition ResourceID := string.
Definition error := string.
Definition Time := Z.

Inductive EdgeType := EdgeDependsOn | EdgeConfigures | EdgeMonitors | EdgeTriggers.

(** [type Layer int] with its six constants, in [iota] order. *)
Inductive Layer :=
| LayerFoundation | LayerPlatform | LayerInfrastructure
| LayerApplication | LayerConfiguration | LayerRuntime.

Definition Layer_int (l : Layer) : Z :=
  match l with
  | LayerFoundation => 0 | LayerPlatform => 1 | LayerInfrastructure => 2
  | LayerApplication => 3 | LayerConfiguration => 4 | LayerRuntime => 5
  end.

Inductive StateStatus :=
| StatePending | StateApplied | StateFailed | StateDrifted | StateSkipped | StateUnknown.

Inductive ActionType := ActionCreate | ActionUpdate | ActionDelete | ActionNoOp.

#[global] Instance ActionType_eq_dec : EqDecision ActionType.
Proof. solve_decision. Defined.

(** Go's [interface{}] values as they occur in configurations and metadata.
    [AFunc] stands for the values [encoding/json] refuses to encode. *)
Inductive Any :=
| ANil
| ABool (b : bool)
| ANumber (z : Z)
| AString (s : string)
| ASlice (l : list Any)
| AMap (kvs : list (string * Any))
| AFunc.

(** [map[string]interface{}] used as a resource configuration. *)
Definition Config := list (string * Any).

Record Change := { Field : string; OldValue : Any; NewValue : Any }.

Record Dependency := {
  Target : ResourceID;
  DepEdgeType : EdgeType;
  Required : bool
}.

Record ResourceState := {
  Status : StateStatus;
  LastApplied : Time;
  Checksum : string;
  Metadata : gmap string Any
}.

Record Action := {
  ActResourceID : ResourceID;
  ActType : ActionType;
  Changes : list Change;
  ActMetadata : gmap string Any
}.

Record Host := {
  HostName : string; Hostname : string; User : string;
  Port : Z; Keyfile : string; Group : string
}.

Record Package := { PkgName : string; Version : string; Manager : string }.

(** The implementations of the [Resource] interface. *)
Inductive Kind :=
| KBase
| KHost (h : Host)
| KPackage (p : Package)
| KService
| KFile.

(** [BaseResource], embedded by every implementation, plus the variant. *)
Record Resource := {
  ID : ResourceID;
  Type_ : string;
  RLayer : Layer;
  Dependencies : list Dependency;
  State : ResourceState;
  RConfig : Config;
  RKind : Kind
}.

Definition GetID (r : Resource) : ResourceID := ID r.
Definition GetLayer (r : Resource) : Layer := RLayer r.
Definition GetDependencies (r : Resource) : list Dependency := Dependencies r.
Definition GetConfig (r : Resource) : Config := RConfig r.

Definition Validate (r : Resource) : option error :=
  if decide (ID r = "") then Some "resource ID is required"
  else if decide (Type_ r = "") then Some "resource type is required"
  else None.

Definition Layer_String (l : Layer) : string :=
  let layers := ["foundation"; "platform"; "infrastructure";
                 "application"; "configuration"; "runtime"] in
  if Z.of_nat (length layers) <=? Layer_int l then "unknown"
  else nth (Z.to_nat (Layer_int l)) layers "unknown".

Definition ValidateLayerDependency (from to : Layer) : option error :=
  if Layer_int from <? Layer_int to
  then Some ("resource in layer " +:+ Layer_String from +:+
             " cannot depend on layer " +:+ Layer_String to)
  else None.

(** ** Map iteration order *)

Record Shuffle := {
  shuffle :> list ResourceID → list ResourceID;
  shuffle_perm : ∀ l, shuffle l ≡ₚ l
}.

Definition map_keys {V} (m : gmap ResourceID V) : list ResourceID :=
  (map_to_list m).*1.

(** The keys of [m] in the order one [range] loop visits them. *)
Definition range_keys {V} (σ : Shuffle) (m : gmap ResourceID V) : list ResourceID :=
  σ (map_keys m).

Program Definition shuffle_id : Shuffle := {| shuffle := λ l, l |}.
Next Obligation. done. Qed.

Program Definition shuffle_rev : Shuffle := {| shuffle := λ l, reverse l |}.
Next Obligation. intros l. apply reverse_Permutation. Qed.

(** ** Dependency graph (graph.go) *)

Record Graph := {
  nodes : gmap ResourceID Resource;
  edges : gmap ResourceID (list Dependency)
}.

Definition NewGraph : Graph := {| nodes := ∅; edges := ∅ |}.

Definition AddResource (resource : Resource) (g : Graph) : Graph * option error :=
  match Validate resource with
  | Some err => (g, Some ("invalid resource " +:+ GetID resource +:+ ": " +:+ err))
  | None =>
      ({| nodes := <[GetID resource := resource]> (nodes g);
          edges := <[GetID resource := GetDependencies resource]> (edges g) |},
       None)
  end.

Definition GetResource (g : Graph) (id : ResourceID) : option Resource :=
  nodes g !! id.

Definition GetAllResources (σ : Shuffle) (g : Graph) : list Resource :=
  omap (λ id, nodes g !! id) (range_keys σ (nodes g)).

(** [g.edges[id]]: a missing key reads as the nil slice. *)
Definition edges_of (g : Graph) (id : ResourceID) : list Dependency :=
  default [] (edges g !! id).

(** The [inDegree] map of [TopologicalSort].  Go's [int] counters are kept
    as [Z]: they are bounded by the number of declared edges. *)
Definition deg_get (d : gmap ResourceID Z) (id : ResourceID) : Z :=
  default 0 (d !! id).
Definition deg_incr (d : gmap ResourceID Z) (id : ResourceID) : gmap ResourceID Z :=
  <[id := deg_get d id + 1]> d.
Definition deg_decr (d : gmap ResourceID Z) (id : ResourceID) : gmap ResourceID Z :=
  <[id := deg_get d id - 1]> d.

(** [for id := range g.nodes { inDegree[id] = 0 }] *)
Definition init_inDegree (order : list ResourceID) : gmap ResourceID Z :=
  foldl (λ d id, <[id := 0]> d) ∅ order.

(** [for _, dep := range deps { if dep.Required { inDegree[dep.Target]++ } }] *)
Definition count_deps (deps : list Dependency) (d : gmap ResourceID Z) : gmap ResourceID Z :=
  foldl (λ d dep, if Required dep then deg_incr d (Target dep) else d) d deps.

(** [for _, deps := range g.edges { ... }] *)
Definition count_incoming (g : Graph) (order : list ResourceID)
    (d : gmap ResourceID Z) : gmap ResourceID Z :=
  foldl (λ d id, count_deps (edges_of g id) d) d order.

(** [for id, degree := range inDegree { if degree == 0 { queue = append(queue, id) } }] *)
Definition initial_queue (order : list ResourceID) (d : gmap ResourceID Z) : list ResourceID :=
  filter (λ id, deg_get d id = 0) order.

(** The inner loop over [g.edges[current]]. *)
Definition relax (deps : list Dependency)
    (st : list ResourceID * gmap ResourceID Z) : list ResourceID * gmap ResourceID Z :=
  foldl (λ '(queue, d) dep,
           if Required dep then
             let d' := deg_decr d (Target dep) in
             if deg_get d' (Target dep) =? 0
             then (queue ++ [Target dep], d')
             else (queue, d')
           else (queue, d))
        st deps.

(** [for len(queue) > 0 { ... }]; [None] when the fuel runs out. *)
Fixpoint kahn_loop (g : Graph) (fuel : nat) (queue result : list ResourceID)
    (d : gmap ResourceID Z) : option (list ResourceID) :=
  match fuel with
  | O => None
  | S fuel' =>
      match queue with
      | [] => Some result
      | current :: queue' =>
          let result' := result ++ [current] in
          let '(queue'', d') := relax (edges_of g current) (queue', d) in
          kahn_loop g fuel' queue'' result' d'
      end
  end.

Record Schedule := {
  sched_nodes : Shuffle;
  sched_edges : Shuffle;
  sched_inDegree : Shuffle
}.

Definition sched_id : Schedule :=
  {| sched_nodes := shuffle_id; sched_edges := shuffle_id; sched_inDegree := shuffle_id |}.
Definition sched_rev : Schedule :=
  {| sched_nodes := shuffle_rev; sched_edges := shuffle_rev; sched_inDegree := shuffle_rev |}.

Definition counted_inDegree (s : Schedule) (g : Graph) : gmap ResourceID Z :=
  count_incoming g (range_keys (sched_edges s) (edges g))
    (init_inDegree (range_keys (sched_nodes s) (nodes g))).

(** The result list the main loop leaves in [result] ([None]: out of fuel,
    which [kahn_run_total] below excludes). *)
Definition kahn_run (s : Schedule) (g : Graph) : option (list ResourceID) :=
  let inDegree := counted_inDegree s g in
  let queue := initial_queue (range_keys (sched_inDegree s) inDegree) inDegree in
  kahn_loop g (S (size inDegree)) queue [] inDegree.

Inductive result (A : Type) :=
| Ok (a : A)
| Err (msg : error).
Arguments Ok {A} a.
Arguments Err {A} msg.

Definition TopologicalSort (s : Schedule) (g : Graph) : result (list ResourceID) :=
  match kahn_run s g with
  | None => Err "out of fuel"
  | Some res =>
      if decide (length res ≠ size (nodes g))
      then Err "circular dependency detected"
      else Ok res
  end.

(** ** Required edges, in-degrees and acyclicity (specification side) *)

Definition req_targets (deps : list Dependency) : list ResourceID :=
  Target <$> filter (λ dep, Required dep = true) deps.

(** The targets of the required dependencies [s] declares, with multiplicity. *)
Definition out (g : Graph) (s : ResourceID) : list ResourceID :=
  req_targets (edges_of g s).

(** [req_edge g a b]: a required edge "a depends on b" is registered in [g]. *)
Definition req_edge (g : Graph) (a b : ResourceID) : Prop := b ∈ out g a.

Definition acyclic (g : Graph) : Prop := ∀ x, ¬ tc (req_edge g) x x.

Definition is_node (g : Graph) (k : ResourceID) : Prop := is_Some (nodes g !! k).

(** Every required edge points at a registered node. *)
Definition targets_exist (g : Graph) : Prop :=
  ∀ a b, req_edge g a b → is_node g b.

(** The two maps of a graph built with [AddResource] and [RemoveResource]
    have the same keys, and every node is stored under its own id. *)
Definition wf_graph (g : Graph) : Prop :=
  (∀ k, is_Some (edges g !! k) ↔ is_Some (nodes g !! k)) ∧
  (∀ k r, nodes g !! k = Some r → GetID r = k).

(** [a] occurs at a smaller index than [b]. *)
Definition before (l : list ResourceID) (a b : ResourceID) : Prop :=
  ∃ i j, l !! i = Some a ∧ l !! j = Some b ∧ (i < j)%nat.

Definition occ (k : ResourceID) (l : list ResourceID) : nat :=
  length (filter (λ x, x = k) l).

Definition indeg (g : Graph) (srcs : list ResourceID) (k : ResourceID) : nat :=
  occ k (srcs ≫= out g).

(** The keys that ever enter [inDegree]. *)
Definition in_inDegree (g : Graph) (k : ResourceID) : Prop :=
  is_node g k ∨ ∃ s, req_edge g s k.

(** ** Graph operations, continued (graph.go) *)

(** The key/value pairs of [m] in the order one [range] loop visits them. *)
Definition range_items {V} (σ : Shuffle) (m : gmap ResourceID V) : list (ResourceID * V) :=
  omap (λ k, (λ v, (k, v)) <$> m !! k) (range_keys σ m).

Definition RemoveResource (id : ResourceID) (g : Graph) : Graph :=
  {| nodes := delete id (nodes g);
     edges := (λ deps, filter (λ dep, Target dep ≠ id) deps) <$> delete id (edges g) |}.

(** The inner loop of [ValidateDependencies] over [g.edges[id]]. *)
Fixpoint validate_edges (g : Graph) (id : ResourceID) (fromLayer : Layer)
    (deps : list Dependency) : option error :=
  match deps with
  | [] => None
  | dep :: rest =>
      if Required dep then
        match nodes g !! Target dep with
        | None =>
            Some ("resource " +:+ id +:+ " depends on non-existent resource " +:+ Target dep)
        | Some targetResource =>
            match ValidateLayerDependency fromLayer (GetLayer targetResource) with
            | Some err => Some ("resource " +:+ id +:+ ": " +:+ err)
            | None => validate_edges g id fromLayer rest
            end
        end
      else validate_edges g id fromLayer rest
  end.

(** The outer loop [for id, resource := range g.nodes]. *)
Fixpoint validate_nodes (g : Graph) (items : list (ResourceID * Resource)) : option error :=
  match items with
  | [] => None
  | (id, resource) :: rest =>
      match validate_edges g id (GetLayer resource) (edges_of g id) with
      | Some err => Some err
      | None => validate_nodes g rest
      end
  end.

Definition ValidateDependencies (s : Schedule) (σ : Shuffle) (g : Graph) : option error :=
  match TopologicalSort s g with
  | Err err => Some err
  | Ok _ => validate_nodes g (range_items σ (nodes g))
  end.

(** ** The environment of the core *)

(** What the core calls but does not define: [json.Marshal], the file
    system behind [SaveState], the wall clock, and the remote transport
    behind the [Apply] and [Destroy] implementations of hosts and apt
    packages ([None]: the call returned a nil error).  [save_error] is the
    error of one [SaveState], if any, and [failed_write] what a reader finds
    at the path after a [SaveState] that failed, given what was there
    before: the write is not atomic. *)
Record Env := {
  json_Marshal : Any → result string;
  save_error : string → gmap ResourceID ResourceState → option error;
  failed_write : string → gmap ResourceID ResourceState →
                 option (gmap ResourceID ResourceState) →
                 option (gmap ResourceID ResourceState);
  clock : nat → Time;
  host_apply : Host → option error;
  host_destroy : Host → option error;
  apt_apply : option Host → Package → option error;
  apt_destroy : option Host → Package → option error
}.

(** The state documents on disk, by path (a path without an entry holds no
    readable document: the file is missing, empty or cut short), and the
    number of clock reads. *)
Record World := {
  fs : gmap string (gmap ResourceID ResourceState);
  ticks : nat
}.

Definition time_Now (E : Env) (w : World) : Time * World :=
  (clock E (ticks w), {| fs := fs w; ticks := S (ticks w) |}).

(** ** State store (state.go) *)

(** [state] maps ids to [*ResourceState]; the entries the store writes are
    never nil, and the map holds the states themselves.  [MarkApplied]
    stores the configuration map of the resource, not a copy; the model
    records its value at that moment. *)
Record StateManager := {
  stateFile : string;
  state : gmap ResourceID ResourceState;
  sm_graph : Graph
}.

Definition NewStateManager (file : string) (g : Graph) : StateManager :=
  {| stateFile := file; state := ∅; sm_graph := g |}.

(** [MkdirAll], [MarshalIndent] and [WriteFile]: when all three succeed
    the whole mapping replaces the document.  When one of them fails the
    error is returned and the file holds what the failed step left: the
    old document (the directory or the serialization failed), nothing
    readable ([WriteFile] truncates before it writes), or the new one.
    Other paths are not touched. *)
Definition SaveState (E : Env) (sm : StateManager) (w : World) : World * option error :=
  match save_error E (stateFile sm) (state sm) with
  | Some err =>
      ({| fs := partial_alter (failed_write E (stateFile sm) (state sm))
                              (stateFile sm) (fs w);
          ticks := ticks w |}, Some err)
  | None => ({| fs := <[stateFile sm := state sm]> (fs w); ticks := ticks w |}, None)
  end.

Definition GetState (sm : StateManager) (id : ResourceID) : option ResourceState :=
  state sm !! id.

Definition SetState (id : ResourceID) (st : ResourceState) (sm : StateManager) : StateManager :=
  {| stateFile := stateFile sm; state := <[id := st]> (state sm); sm_graph := sm_graph sm |}.

Definition RemoveState (id : ResourceID) (sm : StateManager) : StateManager :=
  {| stateFile := stateFile sm; state := delete id (state sm); sm_graph := sm_graph sm |}.

Definition DetectDrift (E : Env) (sm : StateManager) (resource : Resource) : bool * option error :=
  match GetState sm (GetID resource) with
  | None => (true, None)
  | Some currentState =>
      let currentConfig := GetConfig resource in
      match Metadata currentState !! "config" with
      | None => (true, None)
      | Some lastConfig =>
          match json_Marshal E (AMap currentConfig) with
          | Err err => (false, Some ("failed to marshal current config: " +:+ err))
          | Ok configBytes =>
              match json_Marshal E lastConfig with
              | Err err => (false, Some ("failed to marshal last config: " +:+ err))
              | Ok lastConfigBytes =>
                  (negb (bool_decide (configBytes = lastConfigBytes)), None)
              end
          end
      end
  end.

Definition MarkApplied (E : Env) (resource : Resource) (sm : StateManager) (w : World)
    : StateManager * World * option error :=
  let config := GetConfig resource in
  match json_Marshal E (AMap config) with
  | Err err => (sm, w, Some ("failed to marshal config: " +:+ err))
  | Ok configBytes =>
      let '(now, w1) := time_Now E w in
      let st := {| Status := StateApplied; LastApplied := now;
                   Checksum := configBytes;
                   Metadata := {[ "config" := AMap config ]} |} in
      let sm' := SetState (GetID resource) st sm in
      let '(w2, err) := SaveState E sm' w1 in
      (sm', w2, err)
  end.

Definition MarkFailed (E : Env) (resource : Resource) (errorMsg : string)
    (sm : StateManager) (w : World) : StateManager * World * option error :=
  let '(now, w1) := time_Now E w in
  let st := {| Status := StateFailed; LastApplied := now; Checksum := "";
               Metadata := {[ "error" := AString errorMsg ]} |} in
  let sm' := SetState (GetID resource) st sm in
  let '(w2, err) := SaveState E sm' w1 in
  (sm', w2, err).

Definition Cleanup (E : Env) (σg σs : Shuffle) (sm : StateManager) (w : World)
    : StateManager * World * option error :=
  let graphResources : gmap ResourceID bool :=
    foldl (λ m resource, <[GetID resource := true]> m) ∅
          (GetAllResources σg (sm_graph sm)) in
  let toRemove :=
    filter (λ id, default false (graphResources !! id) = false)
           (range_keys σs (state sm)) in
  let sm' := foldl (λ sm id, RemoveState id sm) sm toRemove in
  if decide (0 < length toRemove)%nat
  then let '(w', err) := SaveState E sm' w in (sm', w', err)
  else (sm', w, None).

(** ** Planner (planner.go) *)

Record Planner := {
  p_graph : Graph;
  p_stateManager : StateManager
}.

Record PlanT := {
  Actions : list Action;
  CreatedAt : Time;
  PlanGraph : Graph
}.

Definition planResource (E : Env) (p : Planner) (resource : Resource) : result Action :=
  match GetState (p_stateManager p) (GetID resource) with
  | None =>
      Ok {| ActResourceID := GetID resource; ActType := ActionCreate; Changes := [];
            ActMetadata := {[ "reason" := AString "resource not in state" ]} |}
  | Some _ =>
      match DetectDrift E (p_stateManager p) resource with
      | (_, Some err) => Err ("failed to detect drift: " +:+ err)
      | (true, None) =>
          Ok {| ActResourceID := GetID resource; ActType := ActionUpdate; Changes := [];
                ActMetadata := {[ "reason" := AString "configuration drift detected" ]} |}
      | (false, None) =>
          Ok {| ActResourceID := GetID resource; ActType := ActionNoOp; Changes := [];
                ActMetadata := {[ "reason" := AString "resource up to date" ]} |}
      end
  end.

(** One iteration of the loop of [Plan] over [resourceOrder]. *)
Definition plan_one (E : Env) (p : Planner) (resourceID : ResourceID) : result Action :=
  match GetResource (p_graph p) resourceID with
  | None => Err ("resource " +:+ resourceID +:+ " not found in graph")
  | Some resource =>
      match planResource E p resource with
      | Err err => Err ("failed to plan resource " +:+ resourceID +:+ ": " +:+ err)
      | Ok action => Ok action
      end
  end.

(** The loop itself, appending to [plan.Actions] until the first error. *)
Fixpoint plan_actions (E : Env) (p : Planner) (resourceOrder : list ResourceID)
    (actions : list Action) : result (list Action) :=
  match resourceOrder with
  | [] => Ok actions
  | resourceID :: rest =>
      match plan_one E p resourceID with
      | Err err => Err err
      | Ok action => plan_actions E p rest (actions ++ [action])
      end
  end.

Definition Plan (E : Env) (s : Schedule) (p : Planner) (w : World) : result PlanT * World :=
  let '(now, w1) := time_Now E w in
  match TopologicalSort s (p_graph p) with
  | Err err => (Err ("failed to sort resources: " +:+ err), w1)
  | Ok resourceOrder =>
      match plan_actions E p resourceOrder [] with
      | Err err => (Err err, w1)
      | Ok actions =>
          (Ok {| Actions := actions; CreatedAt := now; PlanGraph := p_graph p |}, w1)
      end
  end.

(** The iteration orders of the three map walks of one [ValidatePlan]. *)
Record ValidationSchedule := {
  vs_sort : Schedule;
  vs_deps_sort : Schedule;
  vs_deps_nodes : Shuffle
}.

Definition vs_id : ValidationSchedule :=
  {| vs_sort := sched_id; vs_deps_sort := sched_id; vs_deps_nodes := shuffle_id |}.

Definition ValidatePlan (v : ValidationSchedule) (plan : PlanT) : option error :=
  match TopologicalSort (vs_sort v) (PlanGraph plan) with
  | Err err => Some ("plan validation failed: " +:+ err)
  | Ok _ =>
      match ValidateDependencies (vs_deps_sort v) (vs_deps_nodes v) (PlanGraph plan) with
      | Some err => Some ("plan validation failed: " +:+ err)
      | None => None
      end
  end.

Definition GetActionCount (plan : PlanT) (actionType : ActionType) : nat :=
  length (filter (λ a, ActType a = actionType) (Actions plan)).

(** ** Resource lifecycle operations (resource model) *)

(** [ctx.Host] as [Apply] and [Destroy] see it. *)
Definition ResourceCtx := option Host.

Definition Resource_Apply (E : Env) (ctx : ResourceCtx) (r : Resource) : option error :=
  match RKind r with
  | KBase => Some ("Apply not implemented for resource type " +:+ Type_ r)
  | KHost h => host_apply E h
  | KPackage p =>
      if decide (Manager p = "apt") then apt_apply E ctx p
      else Some ("unsupported package manager: " +:+ Manager p)
  | KService => Some "service management not yet implemented"
  | KFile => Some "file management not yet implemented"
  end.

Definition Resource_Destroy (E : Env) (ctx : ResourceCtx) (r : Resource) : option error :=
  match RKind r with
  | KBase => Some ("Destroy not implemented for resource type " +:+ Type_ r)
  | KHost h => host_destroy E h
  | KPackage p =>
      if decide (Manager p = "apt") then apt_destroy E ctx p
      else Some ("unsupported package manager: " +:+ Manager p)
  | KService => Some "service destruction not yet implemented"
  | KFile => Some "file removal not yet implemented"
  end.

(** ** Executor *)

Record Executor := {
  e_graph : Graph;
  e_hosts : gmap string Host;
  e_hosts_order : Shuffle
}.

Record ExecutionAction := {
  ExAction : Action;
  ExStartedAt : Time;
  ExCompletedAt : option Time;
  ExFailedAt : option Time;
  ExError : option error
}.

Record ExecutionResult := {
  ResPlan : PlanT;
  ResStartedAt : Time;
  ResCompletedAt : option Time;
  ResFailedAt : option Time;
  Success : bool;
  ResError : option error;
  ResActions : list ExecutionAction
}.

Definition createResourceContext (e : Executor) (resource : Resource) : ResourceCtx :=
  match RKind resource with
  | KHost h => Some h
  | KPackage _ =>
      match range_keys (e_hosts_order e) (e_hosts e) with
      | [] => None
      | name :: _ => e_hosts e !! name
      end
  | _ => None
  end.

(** One call of [executeAction]: the outcome record, the returned error,
    and the state store and world it leaves. *)
Definition executeAction (E : Env) (e : Executor) (action : Action)
    (sm : StateManager) (w : World)
    : ExecutionAction * option error * StateManager * World :=
  let '(started, w) := time_Now E w in
  match GetResource (e_graph e) (ActResourceID action) with
  | None =>
      let '(failed, w) := time_Now E w in
      let err := "resource " +:+ ActResourceID action +:+ " not found" in
      ({| ExAction := action; ExStartedAt := started; ExCompletedAt := None;
          ExFailedAt := Some failed; ExError := Some err |}, Some err, sm, w)
  | Some resource =>
      let resourceCtx := createResourceContext e resource in
      let finish (err : option error) :=
        match err with
        | Some msg =>
            let '(failed, w) := time_Now E w in
            let '(sm', w', _) := MarkFailed E resource msg sm w in
            ({| ExAction := action; ExStartedAt := started; ExCompletedAt := None;
                ExFailedAt := Some failed; ExError := Some msg |},
             Some ("action failed: " +:+ msg), sm', w')
        | None =>
            match MarkApplied E resource sm w with
            | (sm', w', Some msg) =>
                let '(failed, w'') := time_Now E w' in
                ({| ExAction := action; ExStartedAt := started; ExCompletedAt := None;
                    ExFailedAt := Some failed; ExError := Some msg |},
                 Some ("failed to mark resource as applied: " +:+ msg), sm', w'')
            | (sm', w', None) =>
                let '(completed, w'') := time_Now E w' in
                ({| ExAction := action; ExStartedAt := started;
                    ExCompletedAt := Some completed;
                    ExFailedAt := None; ExError := None |}, None, sm', w'')
            end
        end in
      match ActType action with
      | ActionCreate => finish (Resource_Apply E resourceCtx resource)
      | ActionUpdate => finish (Resource_Apply E resourceCtx resource)
      | ActionDelete => finish (Resource_Destroy E resourceCtx resource)
      | ActionNoOp =>
          let '(completed, w) := time_Now E w in
          ({| ExAction := action; ExStartedAt := started;
              ExCompletedAt := Some completed;
              ExFailedAt := None; ExError := None |}, None, sm, w)
      end
  end.

(** The loop of [Execute] over [plan.Actions]: the outcomes appended to
    [result.Actions] so far, and the failure that stopped the loop, if any. *)
Fixpoint execute_actions (E : Env) (e : Executor) (actions : list Action)
    (done_ : list ExecutionAction) (sm : StateManager) (w : World)
    : list ExecutionAction * option (ResourceID * error) * StateManager * World :=
  match actions with
  | [] => (done_, None, sm, w)
  | action :: rest =>
      match executeAction E e action sm w with
      | (_, Some err, sm', w') => (done_, Some (ActResourceID action, err), sm', w')
      | (execAction, None, sm', w') =>
          execute_actions E e rest (done_ ++ [execAction]) sm' w'
      end
  end.

Definition Execute (E : Env) (v : ValidationSchedule) (e : Executor) (plan : PlanT)
    (sm : StateManager) (w : World)
    : option ExecutionResult * option error * StateManager * World :=
  let '(started, w) := time_Now E w in
  match ValidatePlan v plan with
  | Some err => (None, Some ("plan validation failed: " +:+ err), sm, w)
  | None =>
      match execute_actions E e (Actions plan) [] sm w with
      | (done_, Some (id, err), sm', w') =>
          let '(failed, w'') := time_Now E w' in
          (Some {| ResPlan := plan; ResStartedAt := started; ResCompletedAt := None;
                   ResFailedAt := Some failed; Success := false;
                   ResError := Some err; ResActions := done_ |},
           Some ("execution failed at action " +:+ id +:+ ": " +:+ err), sm', w'')
      | (done_, None, sm', w') =>
          let '(completed, w'') := time_Now E w' in
          (Some {| ResPlan := plan; ResStartedAt := started;
                   ResCompletedAt := Some completed;
                   ResFailedAt := None; Success := true;
                   ResError := None; ResActions := done_ |}, None, sm', w'')
      end
  end.

Definition GetSuccessCount (r : ExecutionResult) : nat :=
  length (filter (λ a, ExError a = None) (ResActions r)).

Definition GetFailureCount (r : ExecutionResult) : nat :=
  length (filter (λ a, ExError a ≠ None) (ResActions r)).

(** ** The apt driver's batch operations (drivers/pkg/apt.go) *)

Module Apt.

Record InstallResult := {
  IRPackage : Package;
  IRSuccess : bool;
  IRError : option error;
  IROutput : string
}.

(** [m.SSHClient.RunCommand(ctx, command)] for the n-th command of a
    call: the combined output and the error, if any. *)
Definition Transport := nat → string → string * option error.

Definition pkgName (pkg : Package) : string :=
  if decide (Version pkg ≠ "" ∧ Version pkg ≠ "latest")
  then PkgName pkg +:+ "=" +:+ Version pkg
  else PkgName pkg.

Record Tally := {
  results : list InstallResult;
  successCount : Z;
  failureCount : Z
}.

(** The body of the [for _, pkg := range packages] loop, for the command
    prefix [verb] ("sudo apt-get install -y " or "sudo apt-get remove -y "). *)
Definition run_one (RunCommand : Transport) (verb : string)
    (n : nat) (pkg : Package) (t : Tally) : Tally :=
  let command := verb +:+ pkgName pkg in
  match RunCommand n command with
  | (out, Some err) =>
      {| results := results t ++ [{| IRPackage := pkg; IRSuccess := false;
                                     IRError := Some err; IROutput := out |}];
         successCount := successCount t;
         failureCount := failureCount t + 1 |}
  | (out, None) =>
      {| results := results t ++ [{| IRPackage := pkg; IRSuccess := true;
                                     IRError := None; IROutput := out |}];
         successCount := successCount t + 1;
         failureCount := failureCount t |}
  end.

Fixpoint run_all (RunCommand : Transport) (verb : string)
    (n : nat) (packages : list Package) (t : Tally) : Tally :=
  match packages with
  | [] => t
  | pkg :: rest => run_all RunCommand verb (S n) rest (run_one RunCommand verb n pkg t)
  end.

Definition Install (RunCommand : Transport) (hostName : string)
    (packages : list Package) : option error :=
  let t := run_all RunCommand "sudo apt-get install -y " 0 packages
             {| results := []; successCount := 0; failureCount := 0 |} in
  if decide (failureCount t = Z.of_nat (length packages))
  then Some ("all package installations failed on host " +:+ hostName)
  else None.

Definition Remove (RunCommand : Transport) (hostName : string)
    (packages : list Package) : option error :=
  let t := run_all RunCommand "sudo apt-get remove -y " 0 packages
             {| results := []; successCount := 0; failureCount := 0 |} in
  if decide (failureCount t = Z.of_nat (length packages))
  then Some ("all package removals failed on host " +:+ hostName)
  else None.

End Apt.

(** ** Loop invariant and postcondition of the main loop *)

(** The sources not yet moved to [result]. *)
Definition remaining (srcs result : list ResourceID) : list ResourceID :=
  filter (λ s, s ∉ result) srcs.

Record kahn_inv (g : Graph) (srcs queue result : list ResourceID)
    (d : gmap ResourceID Z) : Prop := {
  inv_nodup : NoDup (result ++ queue);
  inv_dom : ∀ k, is_Some (d !! k) ↔ in_inDegree g k;
  inv_deg : ∀ k, deg_get d k = Z.of_nat (indeg g (remaining srcs result) k);
  inv_zero : ∀ k, k ∈ result ++ queue ↔ in_inDegree g k ∧ deg_get d k = 0;
  inv_order : ∀ j k, result !! j = Some k →
              ∀ s, req_edge g s k → ∃ i, (i < j)%nat ∧ result !! i = Some s
}.

(** What the main loop guarantees about the list it leaves in [result]. *)
Record kahn_post (g : Graph) (res : list ResourceID) : Prop := {
  post_nodup : NoDup res;
  post_dom : ∀ k, k ∈ res → in_inDegree g k;
  post_order : ∀ j k, res !! j = Some k →
               ∀ s, req_edge g s k → ∃ i, (i < j)%nat ∧ res !! i = Some s;
  post_closed : ∀ k, in_inDegree g k → k ∉ res → ∃ s, req_edge g s k ∧ s ∉ res
}.

(** ** What the errors of [ValidateDependencies] say *)

Definition missing_error (id target : ResourceID) : error :=
  "resource " +:+ id +:+ " depends on non-existent resource " +:+ target.

Definition layer_error (id : ResourceID) (from to : Layer) : error :=
  "resource " +:+ id +:+ ": " +:+
  ("resource in layer " +:+ Layer_String from +:+
   " cannot depend on layer " +:+ Layer_String to).

(** The error identifies [id] as the offending resource. *)
Definition names (err : error) (id : ResourceID) : Prop :=
  (∃ target, err = missing_error id target) ∨
  (∃ from to, err = layer_error id from to).

(** Node [a] declares a required edge to an undeclared id or to a node of
    a higher layer. *)
Definition violates (g : Graph) (a : ResourceID) : Prop :=
  ∃ ra b, nodes g !! a = Some ra ∧ req_edge g a b ∧
    (nodes g !! b = None ∨
     ∃ rb, nodes g !! b = Some rb ∧
           Layer_int (GetLayer ra) < Layer_int (GetLayer rb)).

(** ** The planner's decision, in the words of the design document *)

Definition action_of (id : ResourceID) (t : ActionType) (reason : string) : Action :=
  {| ActResourceID := id; ActType := t; Changes := [];
     ActMetadata := {[ "reason" := AString reason ]} |}.

(** Create without a state entry, Update with an entry and drift, NoOp
    otherwise. *)
Definition expected_action (E : Env) (sm : StateManager) (r : Resource) : Action :=
  match GetState sm (GetID r) with
  | None => action_of (GetID r) ActionCreate "resource not in state"
  | Some _ =>
      if (DetectDrift E sm r).1
      then action_of (GetID r) ActionUpdate "configuration drift detected"
      else action_of (GetID r) ActionNoOp "resource up to date"
  end.

(** The action the loop of [Plan] appends for [id], when it appends one. *)
Definition planned (E : Env) (p : Planner) (id : ResourceID) : Action :=
  match plan_one E p id with
  | Ok action => action
  | Err _ => action_of id ActionNoOp ""
  end.

(** ** Example graphs and environments *)

Definition dep_on (t : ResourceID) : Dependency :=
  {| Target := t; DepEdgeType := EdgeDependsOn; Required := true |}.

Definition pending : ResourceState :=
  {| Status := StatePending; LastApplied := 0; Checksum := ""; Metadata := ∅ |}.

Definition service (id : ResourceID) (l : Layer) (deps : list Dependency) : Resource :=
  {| ID := id; Type_ := "service"; RLayer := l; Dependencies := deps;
     State := pending; RConfig := []; RKind := KService |}.

Definition build (rs : list Resource) : Graph :=
  foldl (λ g r, (AddResource r g).1) NewGraph rs.

(** One resource requiring an undeclared one. *)
Definition g_missing : Graph :=
  build [service "A" LayerPlatform [dep_on "M"]].

(** A two-node cycle next to a resource requiring two undeclared ones. *)
Definition g_masked_cycle : Graph :=
  build [service "A" LayerPlatform [dep_on "M1"; dep_on "M2"];
         service "B" LayerPlatform [dep_on "C"];
         service "C" LayerPlatform [dep_on "B"]].

(** Two independent resources. *)
Definition g_pair : Graph :=
  build [service "a" LayerPlatform []; service "b" LayerPlatform []].

(** [A] (platform) and [B] (application) require each other. *)
Definition g_upward_cycle : Graph :=
  build [service "A" LayerPlatform [dep_on "B"];
         service "B" LayerApplication [dep_on "A"]].

(** [A] (platform) requires [B] (application). *)
Definition g_upward : Graph :=
  build [service "A" LayerPlatform [dep_on "B"];
         service "B" LayerApplication []].

(** [A] (platform) and [C] (foundation) both require [B] (application). *)
Definition g_two_upward : Graph :=
  build [service "A" LayerPlatform [dep_on "B"];
         service "B" LayerApplication [];
         service "C" LayerFoundation [dep_on "B"]].

(** [A] (application) requires [B] (platform). *)
Definition g_down : Graph :=
  build [service "A" LayerApplication [dep_on "B"];
         service "B" LayerPlatform []].

(** An instance of [json.Marshal] for the examples: values are printed
    without quoting, and func values are refused the way [encoding/json]
    refuses them. *)
Fixpoint json_example (v : Any) : result string :=
  match v with
  | ANil => Ok "null"
  | ABool b => Ok (if b then "true" else "false")
  | ANumber z => Ok (pretty z)
  | AString s => Ok s
  | ASlice l =>
      (fix items (l : list Any) : result string :=
         match l with
         | [] => Ok "]"
         | x :: l' =>
             match json_example x, items l' with
             | Ok a, Ok b => Ok (a +:+ "," +:+ b)
             | Err e, _ => Err e
             | _, Err e => Err e
             end
         end) l
  | AMap kvs =>
      (fix fields (kvs : list (string * Any)) : result string :=
         match kvs with
         | [] => Ok "}"
         | (k, x) :: kvs' =>
             match json_example x, fields kvs' with
             | Ok a, Ok b => Ok (k +:+ ":" +:+ a +:+ "," +:+ b)
             | Err e, _ => Err e
             | _, Err e => Err e
             end
         end) kvs
  | AFunc => Err "json: unsupported type: func()"
  end.

(** An environment in which every write and every remote call succeeds. *)
Definition env_ok : Env :=
  {| json_Marshal := json_example;
     save_error := λ _ _, None;
     failed_write := λ _ _ old, old;
     clock := λ n, Z.of_nat n;
     host_apply := λ _, None;
     host_destroy := λ _, None;
     apt_apply := λ _ _, None;
     apt_destroy := λ _ _, None |}.

Definition world0 : World := {| fs := ∅; ticks := 0 |}.

Definition nginx : Package :=
  {| PkgName := "nginx"; Version := "latest"; Manager := "apt" |}.

(** The resource [CreateResourceFromPackage] builds for a package. *)
Definition package_resource (pkg : Package) : Resource :=
  {| ID := "package:" +:+ Manager pkg +:+ ":" +:+ PkgName pkg;
     Type_ := "package"; RLayer := LayerPlatform; Dependencies := [];
     State := pending;
     RConfig := [("name", AString (PkgName pkg));
                 ("version", AString (Version pkg));
                 ("manager", AString (Manager pkg))];
     RKind := KPackage pkg |}.

(** A state store that knows a declared resource and a removed one. *)
Definition sm_stale : StateManager :=
  {| stateFile := ".settle/state.json";
     state := {[ "a" := pending; "old" := pending ]};
     sm_graph := g_pair |}.

(** A disk on which the state file of [sm_stale] and one other document
    are stored. *)
Definition world_saved : World :=
  {| fs := {[ ".settle/state.json" := state sm_stale; "/etc/hosts.state" := ∅ ]};
     ticks := 0 |}.

(** An environment whose disk is full: the state file is truncated and the
    write fails. *)
Definition env_disk_full : Env :=
  {| json_Marshal := json_example;
     save_error := λ _ _, Some "failed to write state file: no space left on device";
     failed_write := λ _ _ _, None;
     clock := λ n, Z.of_nat n;
     host_apply := λ _, None;
     host_destroy := λ _, None;
     apt_apply := λ _ _, None;
     apt_destroy := λ _ _, None |}.

(** A resource whose configuration holds a func value, already recorded
    in the state store. *)
Definition hooked : Resource :=
  {| ID := "x"; Type_ := "service"; RLayer := LayerApplication; Dependencies := [];
     State := pending; RConfig := [("hook", AFunc)]; RKind := KService |}.

Definition p_hooked : Planner :=
  {| p_graph := build [hooked];
     p_stateManager :=
       {| stateFile := ".settle/state.json";
          state := {[ "x" := {| Status := StateApplied; LastApplied := 0;
                                Checksum := ""; 
                                Metadata := {[ "config" := AMap [] ]} |} ]};
          sm_graph := build [hooked] |} |}.

Definition p_pair : Planner :=
  {| p_graph := g_pair;
     p_stateManager := NewStateManager ".settle/state.json" g_pair |}.

(** A service with a configuration, and the state entry that records a
    configuration as applied. *)
Definition configured (id : ResourceID) (l : Layer) (deps : list Dependency)
    (cfg : Config) : Resource :=
  {| ID := id; Type_ := "service"; RLayer := l; Dependencies := deps;
     State := pending; RConfig := cfg; RKind := KService |}.

Definition applied (cfg : Config) : ResourceState :=
  {| Status := StateApplied; LastApplied := 0; Checksum := "";
     Metadata := {[ "config" := AMap cfg ]} |}.

(** A chain: [A] requires [B], [B] requires [C]. *)
Definition chain (cfgB cfgC : Config) : Graph :=
  build [configured "A" LayerApplication [dep_on "B"] [("port", ANumber 80)];
         configured "B" LayerPlatform [dep_on "C"] cfgB;
         configured "C" LayerFoundation [] cfgC].

Definition g_chain : Graph :=
  chain [("port", ANumber 8080)] [("size", ANumber 1)].

(** The store has no entry for [A], an older configuration for [B] and
    the current one for [C]. *)
Definition p_chain : Planner :=
  {| p_graph := g_chain;
     p_stateManager :=
       {| stateFile := ".settle/state.json";
          state := {[ "B" := applied [("port", ANumber 8000)];
                      "C" := applied [("size", ANumber 1)] ]};
          sm_graph := g_chain |} |}.

(** The same chain with a func value in the configurations of [B] and of
    [C], both recorded in the store. *)
Definition g_chain_hooked : Graph :=
  chain [("hook", AFunc)] [("size", ANumber 1); ("hook", AFunc)].

Definition p_chain_hooked : Planner :=
  {| p_graph := g_chain_hooked;
     p_stateManager :=
       {| stateFile := ".settle/state.json";
          state := {[ "B" := applied []; "C" := applied [] ]};
          sm_graph := g_chain_hooked |} |}.

(** A plan of three Create actions: an apt package, a service (whose
    [Apply] is the unimplemented stub) and another apt package. *)
Definition curl : Package :=
  {| PkgName := "curl"; Version := "latest"; Manager := "apt" |}.

Definition web1 : Host :=
  {| HostName := "web1"; Hostname := "10.0.0.1"; User := "root";
     Port := 22; Keyfile := "id_rsa"; Group := "web" |}.

Definition g_three : Graph :=
  build [package_resource nginx; service "svc" LayerApplication [];
         package_resource curl].

Definition plan_three : PlanT :=
  {| Actions := [action_of "package:apt:nginx" ActionCreate "resource not in state";
                 action_of "svc" ActionCreate "resource not in state";
                 action_of "package:apt:curl" ActionCreate "resource not in state"];
     CreatedAt := 0;
     PlanGraph := g_three |}.

Definition executor_three : Executor :=
  {| e_graph := g_three; e_hosts := {[ "web1" := web1 ]};
     e_hosts_order := shuffle_id |}.

Definition run_three :=
  Execute env_ok vs_id executor_three plan_three
    (NewStateManager ".settle/state.json" g_three) world0.

(** ** Further operations of the graph, the planner and the executor *)

(** [GetDependents]: the keys of [g.edges] whose slice holds an edge, of
    any kind, to [id]; the [break] adds each key once. *)
Definition GetDependents (σ : Shuffle) (g : Graph) (id : ResourceID) : list ResourceID :=
  filter (λ resourceID, Exists (λ dep, Target dep = id) (edges_of g resourceID))
         (range_keys σ (edges g)).

(** [Graph.GetDependencies]. *)
Definition Graph_GetDependencies (g : Graph) (id : ResourceID) : list Dependency :=
  edges_of g id.

(** [SetHosts]: the map from host names to hosts, later entries of the
    slice replacing earlier ones of the same name. *)
Definition SetHosts (hosts : list Host) (e : Executor) : Executor :=
  {| e_graph := e_graph e;
     e_hosts := foldl (λ m h, <[HostName h := h]> m) ∅ hosts;
     e_hosts_order := e_hosts_order e |}.

(** ** Resource parser *)

Definition CreatePackageResources (packages : list Package) : list Resource :=
  package_resource <$> packages.

Fixpoint ValidateResources (resources : list Resource) : option error :=
  match resources with
  | [] => None
  | resource :: rest =>
      match Validate resource with
      | Some err =>
          Some ("resource " +:+ GetID resource +:+ " validation failed: " +:+ err)
      | None => ValidateResources rest
      end
  end.

(** ** The apt driver's existence check and the package resource on top of it *)

Module AptPackage.

(** The body of the loop of [DoesExist]: the command names the package
    without its version. *)
Definition check_one (RunCommand : Apt.Transport) (n : nat) (pkg : Package)
    (t : Apt.Tally) : Apt.Tally :=
  let command := "dpkg -l | grep -w " +:+ PkgName pkg in
  match RunCommand n command with
  | (out, Some err) =>
      {| Apt.results := Apt.results t ++
           [{| Apt.IRPackage := pkg; Apt.IRSuccess := false;
               Apt.IRError := Some err; Apt.IROutput := out |}];
         Apt.successCount := Apt.successCount t;
         Apt.failureCount := Apt.failureCount t + 1 |}
  | (out, None) =>
      {| Apt.results := Apt.results t ++
           [{| Apt.IRPackage := pkg; Apt.IRSuccess := true;
               Apt.IRError := None; Apt.IROutput := out |}];
         Apt.successCount := Apt.successCount t + 1;
         Apt.failureCount := Apt.failureCount t |}
  end.

Fixpoint check_all (RunCommand : Apt.Transport) (n : nat) (packages : list Package)
    (t : Apt.Tally) : Apt.Tally :=
  match packages with
  | [] => t
  | pkg :: rest => check_all RunCommand (S n) rest (check_one RunCommand n pkg t)
  end.

Definition DoesExist (RunCommand : Apt.Transport) (hostName : string)
    (packages : list Package) : bool * option error :=
  let t := check_all RunCommand 0 packages
             {| Apt.results := []; Apt.successCount := 0; Apt.failureCount := 0 |} in
  if decide (Apt.failureCount t = Z.of_nat (length packages))
  then (false, Some ("all package checks failed on host " +:+ hostName))
  else (bool_decide (Apt.successCount t = Z.of_nat (length packages)), None).

(** [NewAptManager]: [connect] is the outcome of [ssh.NewSSHClient]. *)
Definition NewAptManager (connect : option error) : option error :=
  match connect with
  | Some err => Some ("failed to create SSH client: " +:+ err)
  | None => None
  end.

(** [PackageResource.Apply] on the host [hostName]: [RunCommand n] is the
    n-th command sent over the connection of the manager. *)
Definition Apply (connect : option error) (RunCommand : Apt.Transport)
    (hostName : string) (p : Package) : option error :=
  if decide (Manager p = "apt") then
    match NewAptManager connect with
    | Some err => Some ("failed to create apt manager: " +:+ err)
    | None =>
        match DoesExist RunCommand hostName [p] with
        | (_, Some err) => Some ("failed to check if package exists: " +:+ err)
        | (true, None) => None
        | (false, None) =>
            match Apt.Install (λ n, RunCommand (S n)) hostName [p] with
            | Some err =>
                Some ("failed to install package " +:+ PkgName p +:+ ": " +:+ err)
            | None => None
            end
        end
    end
  else Some ("unsupported package manager: " +:+ Manager p).

(** [PackageResource.Destroy]. *)
Definition Destroy (connect : option error) (RunCommand : Apt.Transport)
    (hostName : string) (p : Package) : option error :=
  if decide (Manager p = "apt") then
    match NewAptManager connect with
    | Some err => Some ("failed to create apt manager: " +:+ err)
    | None =>
        match Apt.Remove RunCommand hostName [p] with
        | Some err =>
            Some ("failed to remove package " +:+ PkgName p +:+ ": " +:+ err)
        | None => None
        end
    end
  else Some ("unsupported package manager: " +:+ Manager p).

End AptPackage.

(** ** Notions used by the properties of the executor *)


(** The resources whose [Apply] and [Destroy] return an error without
    consulting the transport: the base resource, services, files, and
    packages of a manager other than apt. *)
Definition is_stub (r : Resource) : Prop :=
  match RKind r with
  | KBase | KService | KFile => True
  | KPackage p => Manager p ≠ "apt"
  | KHost _ => False
  end.




(** * Properties *)

(** ** Counting occurrences *)

Lemma occ_nil k : occ k [] = 0%nat.
Proof. done. Qed.

Lemma occ_cons k x l :
  occ k (x :: l) = ((if decide (x = k) then 1 else 0) + occ k l)%nat.
Proof. unfold occ. rewrite filter_cons. by destruct (decide (x = k)). Qed.

Lemma occ_app k l1 l2 : occ k (l1 ++ l2) = (occ k l1 + occ k l2)%nat.
Proof. unfold occ. by rewrite filter_app, length_app. Qed.

Lemma occ_elem k l : occ k l ≠ 0%nat ↔ k ∈ l.
Proof.
  induction l as [|x l IH]; [rewrite occ_nil; split; [done | by rewrite elem_of_nil]|].
  rewrite occ_cons, elem_of_cons. destruct (decide (x = k)) as [->|Hne].
  - split; [by left | lia].
  - simpl. rewrite IH. naive_solver.
Qed.

Lemma occ_zero k l : occ k l = 0%nat ↔ k ∉ l.
Proof.
  rewrite <- occ_elem. destruct (occ k l); split; try done; lia.
Qed.

Lemma req_targets_cons dep deps :
  req_targets (dep :: deps) =
  if Required dep then Target dep :: req_targets deps else req_targets deps.
Proof.
  unfold req_targets. rewrite filter_cons.
  destruct (Required dep); by case_decide.
Qed.

(** ** The counting loops *)

Lemma deg_get_incr d t k :
  deg_get (deg_incr d t) k = deg_get d k + (if decide (t = k) then 1 else 0).
Proof.
  unfold deg_incr, deg_get at 1. rewrite lookup_insert.
  case_decide; subst; simpl; [done|]. unfold deg_get. lia.
Qed.

Lemma deg_get_decr d t k :
  deg_get (deg_decr d t) k = deg_get d k - (if decide (t = k) then 1 else 0).
Proof.
  unfold deg_decr, deg_get at 1. rewrite lookup_insert.
  case_decide; subst; simpl; [done|]. unfold deg_get. lia.
Qed.

Lemma is_Some_incr d t k :
  is_Some (deg_incr d t !! k) ↔ is_Some (d !! k) ∨ t = k.
Proof.
  unfold deg_incr. rewrite lookup_insert. case_decide; subst; simpl.
  - split; [by right | by eauto].
  - naive_solver.
Qed.

Lemma is_Some_decr d t k :
  is_Some (deg_decr d t !! k) ↔ is_Some (d !! k) ∨ t = k.
Proof.
  unfold deg_decr. rewrite lookup_insert. case_decide; subst; simpl.
  - split; [by right | by eauto].
  - naive_solver.
Qed.

Lemma count_deps_get deps d k :
  deg_get (count_deps deps d) k = deg_get d k + Z.of_nat (occ k (req_targets deps)).
Proof.
  unfold count_deps. revert d. induction deps as [|dep deps IH]; intros d; simpl.
  - rewrite occ_nil. lia.
  - rewrite IH, req_targets_cons. destruct (Required dep); [|done].
    rewrite deg_get_incr, occ_cons. case_decide; lia.
Qed.

Lemma count_deps_dom deps d k :
  is_Some (count_deps deps d !! k) ↔ is_Some (d !! k) ∨ k ∈ req_targets deps.
Proof.
  unfold count_deps. revert d. induction deps as [|dep deps IH]; intros d; simpl.
  - unfold req_targets. simpl. set_solver.
  - rewrite IH, req_targets_cons. destruct (Required dep); [|done].
    rewrite is_Some_incr, elem_of_cons. naive_solver.
Qed.

Lemma count_incoming_get g order d k :
  deg_get (count_incoming g order d) k = deg_get d k + Z.of_nat (indeg g order k).
Proof.
  unfold count_incoming, indeg. revert d.
  induction order as [|s order IH]; intros d; cbn [foldl].
  - change ([] ≫= out g) with (@nil ResourceID). rewrite occ_nil. lia.
  - rewrite IH, count_deps_get, bind_cons, occ_app. unfold out. lia.
Qed.

Lemma count_incoming_dom g order d k :
  is_Some (count_incoming g order d !! k) ↔
  is_Some (d !! k) ∨ ∃ s, s ∈ order ∧ k ∈ out g s.
Proof.
  unfold count_incoming. revert d.
  induction order as [|s order IH]; intros d; cbn [foldl].
  - set_solver.
  - rewrite IH, count_deps_dom. unfold out. set_solver.
Qed.

Lemma init_fold_lookup order (d : gmap ResourceID Z) k :
  foldl (λ d id, <[id := 0]> d) d order !! k =
  if decide (k ∈ order) then Some 0 else d !! k.
Proof.
  revert d. induction order as [|x order IH]; intros d; cbn [foldl].
  - case_decide as H; [by apply elem_of_nil in H | done].
  - rewrite IH. destruct (decide (k ∈ order)) as [Hin|Hnin].
    + rewrite decide_True by set_solver. done.
    + rewrite lookup_insert. destruct (decide (x = k)) as [->|Hne].
      * rewrite decide_True by set_solver. done.
      * rewrite decide_False by set_solver. done.
Qed.

Lemma init_inDegree_lookup order k :
  init_inDegree order !! k = if decide (k ∈ order) then Some 0 else None.
Proof. unfold init_inDegree. rewrite init_fold_lookup. by case_decide. Qed.

(** ** The inner loop of the main loop *)

Lemma relax_cons dep deps q d :
  relax (dep :: deps) (q, d) =
  relax deps
    (if Required dep then
       if deg_get (deg_decr d (Target dep)) (Target dep) =? 0
       then (q ++ [Target dep], deg_decr d (Target dep))
       else (q, deg_decr d (Target dep))
     else (q, d)).
Proof. reflexivity. Qed.

Lemma relax_spec deps : ∀ q d,
  (∀ k, Z.of_nat (occ k (req_targets deps)) ≤ deg_get d k) →
  ∃ new d', relax deps (q, d) = (q ++ new, d') ∧
    (∀ k, deg_get d' k = deg_get d k - Z.of_nat (occ k (req_targets deps))) ∧
    (∀ k, is_Some (d' !! k) ↔ is_Some (d !! k) ∨ k ∈ req_targets deps) ∧
    NoDup new ∧
    (∀ t, t ∈ new ↔
          t ∈ req_targets deps ∧ deg_get d t = Z.of_nat (occ t (req_targets deps))).
Proof.
  induction deps as [|dep deps IH]; intros q d Hle.
  - exists [], d. rewrite app_nil_r. split; [done|].
    change (req_targets []) with (@nil ResourceID).
    split; [intros k; rewrite occ_nil; lia|].
    split; [intros k; rewrite elem_of_nil; naive_solver|].
    split; [constructor|]. intros t. rewrite !elem_of_nil. naive_solver.
  - rewrite relax_cons. rewrite req_targets_cons in *.
    destruct (Required dep); [|by apply IH].
    set (t := Target dep) in *. set (d1 := deg_decr d t).
    assert (∀ k, Z.of_nat (occ k (req_targets deps)) ≤ deg_get d1 k) as Hle1.
    { intros k. specialize (Hle k). unfold d1. rewrite deg_get_decr.
      rewrite occ_cons in Hle. case_decide; lia. }
    assert (deg_get d1 t = deg_get d t - 1) as Hd1t.
    { unfold d1. rewrite deg_get_decr. by rewrite decide_True. }
    destruct (deg_get d1 t =? 0) eqn:Hz.
    + apply Z.eqb_eq in Hz.
      destruct (IH (q ++ [t]) d1 Hle1) as (new & d' & Heq & Hget & Hdom & Hnd & Hnew).
      assert (t ∉ req_targets deps) as Htn.
      { apply occ_zero. specialize (Hle1 t). lia. }
      exists (t :: new), d'. split; [by rewrite Heq, <- app_assoc|].
      split; [|split; [|split]].
      * intros k. rewrite Hget. unfold d1. rewrite deg_get_decr, occ_cons.
        case_decide; lia.
      * intros k. rewrite Hdom. unfold d1. rewrite is_Some_decr, elem_of_cons.
        naive_solver.
      * constructor; [|done]. rewrite Hnew. naive_solver.
      * intros k. rewrite !elem_of_cons, Hnew, occ_cons.
        destruct (decide (t = k)) as [<-|Hne].
        -- apply occ_zero in Htn. split; [|by left]. intros _.
           split; [by left | lia].
        -- unfold d1. rewrite deg_get_decr, decide_False by done.
           split; [intros [?|[? ?]]; [done|] | intros [[?|?] ?]; [done|right]];
             (split; [try right; done | lia]).
    + apply Z.eqb_neq in Hz.
      destruct (IH q d1 Hle1) as (new & d' & Heq & Hget & Hdom & Hnd & Hnew).
      exists new, d'. split; [done|].
      split; [|split; [|split]].
      * intros k. rewrite Hget. unfold d1. rewrite deg_get_decr, occ_cons.
        case_decide; lia.
      * intros k. rewrite Hdom. unfold d1. rewrite is_Some_decr, elem_of_cons.
        naive_solver.
      * done.
      * intros k. rewrite elem_of_cons, Hnew, occ_cons.
        destruct (decide (t = k)) as [<-|Hne].
        -- split.
           ++ intros [_ Heq1]. split; [by left | lia].
           ++ intros [_ Heq1]. split; [|lia].
              apply occ_elem. lia.
        -- unfold d1. rewrite deg_get_decr, decide_False by done.
           split; [intros [? ?] | intros [[?|?] ?]; [done|]];
             (split; [try right; done | lia]).
Qed.

(** ** The loop invariant of the main loop *)

Lemma out_is_source g s k : k ∈ out g s → is_Some (edges g !! s).
Proof.
  unfold out, edges_of. destruct (edges g !! s); [eauto|].
  simpl. unfold req_targets. simpl. by rewrite elem_of_nil.
Qed.

Lemma out_not_source g s : edges g !! s = None → out g s = [].
Proof. unfold out, edges_of. by intros ->. Qed.

Lemma indeg_nil g k : indeg g [] k = 0%nat.
Proof. done. Qed.

Lemma indeg_cons g s l k : indeg g (s :: l) k = (occ k (out g s) + indeg g l k)%nat.
Proof. unfold indeg. by rewrite bind_cons, occ_app. Qed.

Lemma filter_ne_id (cur : ResourceID) (l : list ResourceID) :
  cur ∉ l → filter (λ s, s ≠ cur) l = l.
Proof.
  induction l as [|x l IH]; [done|]. rewrite not_elem_of_cons. intros [Hne Hnin].
  rewrite filter_cons, decide_True by done. by rewrite IH.
Qed.

Lemma indeg_split g cur l k :
  NoDup l → (cur ∉ l → out g cur = []) →
  indeg g l k = (occ k (out g cur) + indeg g (filter (λ s, s ≠ cur) l) k)%nat.
Proof.
  induction l as [|x l IH]; intros Hnd Hout.
  - rewrite Hout by apply not_elem_of_nil. done.
  - apply NoDup_cons in Hnd as [Hx Hnd]. rewrite filter_cons.
    destruct (decide (x ≠ cur)) as [Hne|Heq].
    + rewrite !indeg_cons, IH; [lia|done|].
      intros Hnin. apply Hout. rewrite not_elem_of_cons. naive_solver.
    + apply dec_stable in Heq. subst x.
      rewrite filter_ne_id by done. by rewrite indeg_cons.
Qed.

Lemma indeg_zero g l k : indeg g l k = 0%nat ↔ ∀ s, s ∈ l → k ∉ out g s.
Proof.
  unfold indeg. rewrite occ_zero, list_elem_of_bind. naive_solver.
Qed.

Lemma indeg_pos g l k : indeg g l k ≠ 0%nat → ∃ s, s ∈ l ∧ k ∈ out g s.
Proof.
  unfold indeg. rewrite occ_elem, list_elem_of_bind. naive_solver.
Qed.

Lemma remaining_snoc srcs result cur :
  remaining srcs (result ++ [cur]) = filter (λ s, s ≠ cur) (remaining srcs result).
Proof.
  unfold remaining. rewrite list_filter_filter. apply list_filter_iff.
  intros s. rewrite not_elem_of_app, not_elem_of_cons.
  pose proof (not_elem_of_nil s). tauto.
Qed.

Lemma elem_of_remaining srcs result s :
  s ∈ remaining srcs result ↔ s ∈ srcs ∧ s ∉ result.
Proof. unfold remaining. rewrite list_elem_of_filter. naive_solver. Qed.

Section kahn_loop_proof.
Variable g : Graph.
Variable srcs : list ResourceID.
Hypothesis srcs_nodup : NoDup srcs.
Hypothesis srcs_keys : ∀ s, s ∈ srcs ↔ is_Some (edges g !! s).

Lemma req_edge_source s k : req_edge g s k → s ∈ srcs.
Proof. intros H. apply srcs_keys. by eapply out_is_source. Qed.

Lemma indeg_remaining_snoc result cur k :
  cur ∉ result →
  indeg g (remaining srcs result) k =
  (occ k (out g cur) + indeg g (remaining srcs (result ++ [cur])) k)%nat.
Proof.
  intros Hcur. rewrite remaining_snoc. apply indeg_split.
  - by apply NoDup_filter.
  - rewrite elem_of_remaining. intros Hn. apply out_not_source.
    destruct (edges g !! cur) eqn:He; [|done].
    destruct Hn. split; [|done]. apply srcs_keys. by rewrite He.
Qed.

Lemma kahn_step cur queue result d :
  kahn_inv g srcs (cur :: queue) result d →
  ∃ new d', relax (edges_of g cur) (queue, d) = (queue ++ new, d') ∧
            kahn_inv g srcs (queue ++ new) (result ++ [cur]) d'.
Proof.
  intros [Hnd Hdom Hdeg Hzero Horder].
  assert (cur ∉ result) as Hcur.
  { apply NoDup_app in Hnd as (_ & Hdisj & _). intros Hin.
    apply (Hdisj _ Hin). by left. }
  pose proof (λ k, indeg_remaining_snoc result cur k Hcur) as Hsplit.
  destruct (relax_spec (edges_of g cur) queue d) as (new & d' & Heq & Hget & Hdom' & Hndn & Hnew).
  { intros k. rewrite Hdeg, (Hsplit k). unfold out. lia. }
  fold (out g cur) in Hget, Hdom', Hnew.
  exists new, d'. split; [done|].
  assert ((result ++ [cur]) ++ queue ++ new = (result ++ cur :: queue) ++ new) as Hl.
  { by rewrite <- !app_assoc. }
  assert (∀ k, k ∈ new → k ∉ result ++ cur :: queue) as Hfresh.
  { intros k [Hk1 Hk2]%Hnew Hin. apply Hzero in Hin as [_ Hz].
    apply occ_elem in Hk1. lia. }
  split.
  - rewrite Hl. apply NoDup_app. split; [done|]. split; [|done].
    intros k Hk Hk'. by apply (Hfresh k).
  - intros k. rewrite Hdom', Hdom. split; [|by left].
    intros [?|Hk]; [done|]. right. by exists cur.
  - intros k. rewrite Hget, Hdeg, (Hsplit k). lia.
  - intros k. rewrite Hl, elem_of_app, Hzero, Hnew, Hget.
    pose proof (Hdeg k) as Hk. pose proof (Hsplit k) as Hs. split.
    + intros [[Hin Hz]|[Hin Hz]]; [split; [done|lia]|].
      split; [|lia]. right. by exists cur.
    + intros [Hin Hz]. destruct (decide (deg_get d k = 0)) as [Hz'|Hz'].
      * left. done.
      * right. split; [|lia]. apply occ_elem. lia.
  - intros j k Hj s Hs. apply lookup_snoc_Some in Hj as [[Hlt Hj]|[-> <-]].
    + destruct (Horder j k Hj s Hs) as (i & Hi & His).
      exists i. split; [done|]. by apply lookup_app_l_Some.
    + assert (s ∈ result) as Hin.
      { destruct (decide (s ∈ result)) as [|Hnin]; [done|]. exfalso.
        assert (cur ∈ result ++ cur :: queue) as Hc by set_solver.
        apply Hzero in Hc as [_ Hz]. rewrite Hdeg in Hz.
        assert (indeg g (remaining srcs result) cur = 0%nat) as Hz' by lia.
        rewrite indeg_zero in Hz'. apply (Hz' s); [|done].
        apply elem_of_remaining. split; [|done]. by eapply req_edge_source. }
      apply list_elem_of_lookup in Hin as [i Hi]. exists i.
      split; [by eapply lookup_lt_Some|]. by apply lookup_app_l_Some.
Qed.

Lemma kahn_loop_inv n :
  (∀ l, NoDup l → (∀ k, k ∈ l → in_inDegree g k) → (length l ≤ n)%nat) →
  ∀ fuel queue result d,
    kahn_inv g srcs queue result d →
    (n < fuel + length result)%nat →
    ∃ res d', kahn_loop g fuel queue result d = Some res ∧
              kahn_inv g srcs [] res d'.
Proof.
  intros Hbound. induction fuel as [|fuel IH]; intros queue result d Hinv Hfuel.
  - exfalso. destruct Hinv as [Hnd _ _ Hzero _].
    assert (length result ≤ n)%nat; [|lia]. apply Hbound.
    + by apply NoDup_app in Hnd as (? & _ & _).
    + intros k Hk. apply (Hzero k). apply elem_of_app. by left.
  - destruct queue as [|cur queue]; [by exists result, d|].
    destruct (kahn_step _ _ _ _ Hinv) as (new & d' & Heq & Hinv').
    cbn [kahn_loop]. rewrite Heq. apply IH; [done|].
    rewrite length_app. simpl. lia.
Qed.

Lemma kahn_inv_post res d : kahn_inv g srcs [] res d → kahn_post g res.
Proof.
  intros [Hnd Hdom Hdeg Hzero Horder]. rewrite app_nil_r in Hnd.
  split; [done| | done |].
  - intros k Hk. apply (Hzero k). by rewrite app_nil_r.
  - intros k Hk Hnin. destruct (decide (deg_get d k = 0)) as [Hz|Hz].
    + destruct Hnin. specialize (Hzero k). rewrite app_nil_r in Hzero.
      by apply Hzero.
    + rewrite Hdeg in Hz.
      destruct (indeg_pos g (remaining srcs res) k) as (s & Hs & Hks); [lia|].
      apply elem_of_remaining in Hs as [_ Hs]. by exists s.
Qed.
End kahn_loop_proof.

(** ** The whole of [TopologicalSort] *)

Lemma elem_of_map_keys {V} (m : gmap ResourceID V) k :
  k ∈ map_keys m ↔ is_Some (m !! k).
Proof.
  unfold map_keys. rewrite list_elem_of_fmap. split.
  - intros ([k' v] & -> & Hin). apply elem_of_map_to_list in Hin. by eexists.
  - intros [v Hv]. exists (k, v). split; [done|]. by apply elem_of_map_to_list.
Qed.

Lemma NoDup_map_keys {V} (m : gmap ResourceID V) : NoDup (map_keys m).
Proof. apply NoDup_fst_map_to_list. Qed.

Lemma length_map_keys {V} (m : gmap ResourceID V) : length (map_keys m) = size m.
Proof. unfold map_keys. by rewrite length_fmap, length_map_to_list. Qed.

Lemma range_keys_perm {V} (σ : Shuffle) (m : gmap ResourceID V) :
  range_keys σ m ≡ₚ map_keys m.
Proof. apply shuffle_perm. Qed.

Lemma elem_of_range_keys {V} (σ : Shuffle) (m : gmap ResourceID V) k :
  k ∈ range_keys σ m ↔ is_Some (m !! k).
Proof. by rewrite range_keys_perm, elem_of_map_keys. Qed.

Lemma NoDup_range_keys {V} (σ : Shuffle) (m : gmap ResourceID V) :
  NoDup (range_keys σ m).
Proof. rewrite range_keys_perm. apply NoDup_map_keys. Qed.

Lemma length_range_keys {V} (σ : Shuffle) (m : gmap ResourceID V) :
  length (range_keys σ m) = size m.
Proof. by rewrite range_keys_perm, length_map_keys. Qed.

Lemma counted_inDegree_dom s g k :
  is_Some (counted_inDegree s g !! k) ↔ in_inDegree g k.
Proof.
  unfold counted_inDegree, in_inDegree, is_node.
  rewrite count_incoming_dom, init_inDegree_lookup.
  split.
  - intros [Hn|(src & _ & Hk)]; [|right; by exists src].
    left. case_decide as Hin; [|by destruct Hn].
    by apply elem_of_range_keys in Hin.
  - intros [Hn|(src & Hk)].
    + left. rewrite decide_True; [done|]. by apply elem_of_range_keys.
    + right. exists src. split; [|done].
      apply elem_of_range_keys. by eapply out_is_source.
Qed.

Lemma counted_inDegree_get s g k :
  deg_get (counted_inDegree s g) k =
  Z.of_nat (indeg g (range_keys (sched_edges s) (edges g)) k).
Proof.
  unfold counted_inDegree. rewrite count_incoming_get.
  unfold deg_get at 1. rewrite init_inDegree_lookup. by case_decide.
Qed.

Lemma remaining_nil srcs : remaining srcs [] = srcs.
Proof.
  unfold remaining. induction srcs as [|x l IH]; [done|].
  rewrite filter_cons, decide_True by apply not_elem_of_nil. by rewrite IH.
Qed.

Lemma kahn_inv_init s g :
  let d := counted_inDegree s g in
  kahn_inv g (range_keys (sched_edges s) (edges g))
    (initial_queue (range_keys (sched_inDegree s) d) d) [] d.
Proof.
  intros d. split.
  - simpl. unfold initial_queue. apply NoDup_filter, NoDup_range_keys.
  - apply counted_inDegree_dom.
  - intros k. rewrite remaining_nil. apply counted_inDegree_get.
  - intros k. simpl. unfold initial_queue.
    rewrite list_elem_of_filter, elem_of_range_keys.
    unfold d at 2. rewrite counted_inDegree_dom. tauto.
  - intros j k Hj. by rewrite lookup_nil in Hj.
Qed.

Lemma inDegree_bound s g l :
  NoDup l → (∀ k, k ∈ l → in_inDegree g k) →
  (length l ≤ size (counted_inDegree s g))%nat.
Proof.
  intros Hnd Hin. rewrite <- length_map_keys. apply submseteq_length.
  apply NoDup_submseteq; [done|]. intros k Hk.
  apply elem_of_map_keys, counted_inDegree_dom. by apply Hin.
Qed.

(** The main loop always ends within its fuel, and its result meets
    [kahn_post]. *)
Lemma kahn_run_total s g : ∃ res, kahn_run s g = Some res ∧ kahn_post g res.
Proof.
  unfold kahn_run.
  destruct (kahn_loop_inv g (range_keys (sched_edges s) (edges g))
              (NoDup_range_keys _ _) (λ k, elem_of_range_keys _ _ k)
              (size (counted_inDegree s g)) (inDegree_bound s g)
              (S (size (counted_inDegree s g))) _ _ _ (kahn_inv_init s g))
    as (res & d' & Hrun & Hinv).
  { simpl. lia. }
  exists res. split; [done|].
  by eapply kahn_inv_post.
Qed.

Lemma TopologicalSort_cases s g :
  ∃ res, kahn_run s g = Some res ∧ kahn_post g res ∧
    ((length res = size (nodes g) ∧ TopologicalSort s g = Ok res) ∨
     (length res ≠ size (nodes g) ∧
      TopologicalSort s g = Err "circular dependency detected")).
Proof.
  destruct (kahn_run_total s g) as (res & Hrun & Hpost).
  exists res. split; [done|]. split; [done|].
  unfold TopologicalSort. rewrite Hrun.
  case_decide as Hlen; [by right | by left].
Qed.

Lemma TopologicalSort_Ok s g order :
  TopologicalSort s g = Ok order →
  kahn_post g order ∧ length order = size (nodes g).
Proof.
  destruct (TopologicalSort_cases s g) as (res & _ & Hpost & [[Hl He]|[Hl He]]);
    rewrite He; intros [= <-]. done.
Qed.

(** ** Consequences of the postcondition *)

Lemma before_irrefl l a : NoDup l → ¬ before l a a.
Proof.
  intros Hnd (i & j & Hi & Hj & Hlt).
  pose proof (NoDup_lookup l i j a Hnd Hi Hj). lia.
Qed.

Lemma before_trans l a b c : NoDup l → before l a b → before l b c → before l a c.
Proof.
  intros Hnd (i & j & Hi & Hj & Hlt) (j' & k & Hj' & Hk & Hlt').
  pose proof (NoDup_lookup l j j' b Hnd Hj Hj'). subst j'.
  exists i, k. split; [done|]. split; [done|lia].
Qed.

Lemma before_elem_l l a b : before l a b → a ∈ l.
Proof. intros (i & j & Hi & _). by eapply list_elem_of_lookup_2. Qed.

Lemma post_edge_before g res a b :
  kahn_post g res → req_edge g a b → b ∈ res → before res a b.
Proof.
  intros Hpost Hab [j Hj]%list_elem_of_lookup.
  destruct (post_order g res Hpost j b Hj a Hab) as (i & Hi & Hia).
  by exists i, j.
Qed.

Lemma post_path_before g res a b :
  kahn_post g res → tc (req_edge g) a b → b ∈ res → before res a b.
Proof.
  intros Hpost Hab. induction Hab as [a b Hab|a c b Hac Hcb IH]; intros Hb.
  - by apply (post_edge_before g).
  - specialize (IH Hb). eapply before_trans; [by apply Hpost| |done].
    apply (post_edge_before g); [done|done|]. by eapply before_elem_l.
Qed.

(** A node on a required-edge cycle never reaches the result. *)
Lemma post_cycle_absent g res x :
  kahn_post g res → tc (req_edge g) x x → x ∉ res.
Proof.
  intros Hpost Hc Hx. eapply before_irrefl; [by apply Hpost|].
  by eapply post_path_before.
Qed.

(** Two runs of the main loop on one graph process the same keys. *)
Lemma post_subset g r1 r2 :
  kahn_post g r1 → kahn_post g r2 → ∀ j k, r1 !! j = Some k → k ∈ r2.
Proof.
  intros H1 H2 j. induction j as [j IH] using lt_wf_ind. intros k Hj.
  destruct (decide (k ∈ r2)) as [|Hnin]; [done|]. exfalso.
  assert (in_inDegree g k) as Hk.
  { eapply post_dom; [exact H1|]. by eapply list_elem_of_lookup_2. }
  destruct (post_closed g r2 H2 k Hk Hnin) as (s & Hs & Hsn).
  destruct (post_order g r1 H1 j k Hj s Hs) as (i & Hi & His).
  apply Hsn. by eapply IH.
Qed.

Lemma post_unique g r1 r2 : kahn_post g r1 → kahn_post g r2 → r1 ≡ₚ r2.
Proof.
  intros H1 H2. apply NoDup_Permutation; [by apply H1 | by apply H2|].
  intros k. split; intros [j Hj]%list_elem_of_lookup.
  - exact (post_subset g r1 r2 H1 H2 j k Hj).
  - exact (post_subset g r2 r1 H2 H1 j k Hj).
Qed.

Lemma in_inDegree_node g k : targets_exist g → in_inDegree g k ↔ is_node g k.
Proof.
  intros Ht. split; [|by left]. intros [?|(s & Hs)]; [done|]. by eapply Ht.
Qed.

Lemma post_submseteq_nodes g res :
  targets_exist g → kahn_post g res → res ⊆+ map_keys (nodes g).
Proof.
  intros Ht Hpost. apply NoDup_submseteq; [by apply Hpost|].
  intros k Hk. apply elem_of_map_keys. apply (in_inDegree_node g k Ht).
  by eapply post_dom.
Qed.

Lemma post_perm_nodes g res :
  targets_exist g → kahn_post g res →
  length res = size (nodes g) ↔ res ≡ₚ map_keys (nodes g).
Proof.
  intros Ht Hpost. split.
  - intros Hlen. apply submseteq_length_Permutation.
    + by apply post_submseteq_nodes.
    + rewrite length_map_keys. lia.
  - intros ->. apply length_map_keys.
Qed.

(** In a finite set in which every member has a predecessor (along a
    transitive closure) inside the set, some member lies on a cycle. *)
Lemma closed_preds_cycle (R : relation ResourceID) (l : list ResourceID) :
  (∀ w, w ∈ l → ∃ v, v ∈ l ∧ tc R v w) → l = [] ∨ ∃ x, tc R x x.
Proof.
  induction l as [|x l IH]; intros Hp; [by left|]. right.
  destruct (Hp x) as (v & Hv & Hvx); [by left|].
  apply elem_of_cons in Hv as [->|Hv]; [by exists x|].
  destruct IH as [->|Hc]; [|by apply elem_of_nil in Hv|done].
  intros w Hw. destruct (Hp w) as (u & Hu & Huw); [by right|].
  apply elem_of_cons in Hu as [->|Hu]; [|by exists u].
  exists v. split; [done|]. by etrans.
Qed.

(** Without required-edge cycles, every node reaches the result. *)
Lemma post_complete g res :
  wf_graph g → acyclic g → kahn_post g res →
  ∀ k, is_node g k → k ∈ res.
Proof.
  intros [Hwf _] Hac Hpost k Hk.
  destruct (decide (k ∈ res)) as [|Hnin]; [done|]. exfalso.
  destruct (closed_preds_cycle (req_edge g)
              (filter (λ w, w ∉ res) (map_keys (nodes g)))) as [Hnil|[x Hx]].
  - intros w [Hw Hwn]%list_elem_of_filter. apply elem_of_map_keys in Hwn.
    destruct (post_closed g res Hpost w (or_introl Hwn) Hw) as (v & Hv & Hvn).
    exists v. split; [|by apply tc_once].
    apply list_elem_of_filter. split; [done|].
    apply elem_of_map_keys, Hwf. by eapply out_is_source.
  - assert (k ∈ filter (λ w, w ∉ res) (map_keys (nodes g))) as Hin.
    { apply list_elem_of_filter. split; [done|]. by apply elem_of_map_keys. }
    rewrite Hnil in Hin. by apply elem_of_nil in Hin.
  - by apply (Hac x).
Qed.

(** ** Graphs built through the API are well formed *)

Lemma NewGraph_wf : wf_graph NewGraph.
Proof.
  split; simpl.
  - intros k. by rewrite !lookup_empty.
  - intros k r. by rewrite lookup_empty.
Qed.

Lemma AddResource_wf r g : wf_graph g → wf_graph (AddResource r g).1.
Proof.
  intros [Hk Hid]. unfold AddResource. destruct (Validate r); [done|].
  split; simpl.
  - intros k. rewrite !lookup_insert. case_decide; [|apply Hk].
    split; eauto.
  - intros k r'. rewrite lookup_insert. case_decide; [|apply Hid].
    by intros [= <-].
Qed.

Lemma RemoveResource_wf id g : wf_graph g → wf_graph (RemoveResource id g).
Proof.
  intros [Hk Hid]. split; simpl.
  - intros k. rewrite lookup_fmap, fmap_is_Some, !lookup_delete.
    case_decide; [|apply Hk]. split; by intros [? ?].
  - intros k r. rewrite lookup_delete. case_decide; [done|apply Hid].
Qed.

(** ** TopologicalSort on graphs whose required edges all target nodes *)

(** [TopologicalSort] never runs out of fuel: it returns an order or the
    cycle error. *)
Lemma TopologicalSort_total s g :
  (∃ order, TopologicalSort s g = Ok order) ∨
  TopologicalSort s g = Err "circular dependency detected".
Proof.
  destruct (TopologicalSort_cases s g) as (res & _ & _ & [[_ H]|[_ H]]); eauto.
Qed.

(** Without cycles, and with every required target declared, the sort
    succeeds and returns the node ids, each once. *)
Lemma TopologicalSort_acyclic_ok s g :
  wf_graph g → targets_exist g → acyclic g →
  ∃ order, TopologicalSort s g = Ok order ∧
           order ≡ₚ map_keys (nodes g) ∧ length order = size (nodes g).
Proof.
  intros Hwf Ht Hac.
  destruct (TopologicalSort_cases s g) as (res & _ & Hpost & Hcase).
  assert (res ≡ₚ map_keys (nodes g)) as Hperm.
  { apply NoDup_Permutation; [by apply Hpost | apply NoDup_map_keys|].
    intros k. rewrite elem_of_map_keys. split.
    - intros Hk. apply (in_inDegree_node g k Ht). by eapply post_dom.
    - by apply post_complete. }
  assert (length res = size (nodes g)) as Hlen.
  { by rewrite Hperm, length_map_keys. }
  destruct Hcase as [[_ He]|[Hne _]]; [|done]. by exists res.
Qed.

(** With every required target declared, a cycle is always reported. *)
Lemma TopologicalSort_cycle_err s g x :
  wf_graph g → targets_exist g → tc (req_edge g) x x →
  TopologicalSort s g = Err "circular dependency detected".
Proof.
  intros [Hwf _] Ht Hc.
  destruct (TopologicalSort_cases s g) as (res & _ & Hpost & [[Hlen _]|[_ He]]);
    [exfalso|done].
  apply (post_perm_nodes g res Ht Hpost) in Hlen.
  apply (post_cycle_absent g res x Hpost Hc). rewrite Hlen.
  apply elem_of_map_keys, Hwf.
  inversion Hc as [? ? Hxy|? y ? Hxy _]; subst; by eapply out_is_source.
Qed.

(** With every required target declared, a dependent comes before what it
    requires. *)
Lemma TopologicalSort_order s g order a b :
  targets_exist g → TopologicalSort s g = Ok order →
  req_edge g a b → before order a b.
Proof.
  intros Ht [Hpost Hlen]%TopologicalSort_Ok Hab.
  apply (post_edge_before g); [done..|].
  apply (post_perm_nodes g order Ht Hpost) in Hlen. rewrite Hlen.
  apply elem_of_map_keys. by eapply Ht.
Qed.

Lemma TopologicalSort_Ok_perm s g order :
  targets_exist g → TopologicalSort s g = Ok order →
  order ≡ₚ map_keys (nodes g).
Proof.
  intros Ht [Hpost Hlen]%TopologicalSort_Ok.
  by apply (post_perm_nodes g order Ht Hpost).
Qed.

(** The iteration order changes the order of the result, not its members,
    and not whether the sort succeeds. *)
Lemma TopologicalSort_schedule s1 s2 g order1 :
  TopologicalSort s1 g = Ok order1 →
  ∃ order2, TopologicalSort s2 g = Ok order2 ∧ order1 ≡ₚ order2.
Proof.
  intros [Hpost1 Hlen1]%TopologicalSort_Ok.
  destruct (TopologicalSort_cases s2 g) as (res & _ & Hpost2 & Hcase).
  pose proof (post_unique g order1 res Hpost1 Hpost2) as Hperm.
  destruct Hcase as [[_ He]|[Hne _]]; [by exists res|].
  rewrite <- Hperm in Hne. done.
Qed.

(** ** TopologicalSort when a required edge targets an undeclared id *)

Lemma tc_first {A} (R : relation A) x y : tc R x y → ∃ z, R x z.
Proof. intros H. inversion H; eauto. Qed.

Lemma g_missing_edge a b : req_edge g_missing a b → a = "A" ∧ b = "M".
Proof.
  unfold req_edge, out, edges_of.
  change (edges g_missing) with (<["A" := [dep_on "M"]]> (∅ : gmap ResourceID (list Dependency))).
  rewrite lookup_insert. case_decide as Ha; simpl.
  - intros Hb. apply list_elem_of_singleton in Hb. done.
  - rewrite lookup_empty. simpl. intros Hb. by apply elem_of_nil in Hb.
Qed.

Lemma g_missing_acyclic : acyclic g_missing.
Proof.
  intros x Hc. inversion Hc as [? ? Hxy|? y ? Hxy Hyx]; subst.
  - apply g_missing_edge in Hxy as [? ?]. congruence.
  - apply g_missing_edge in Hxy as [-> ->].
    apply tc_first in Hyx as [z Hz]. by apply g_missing_edge in Hz as [? ?].
Qed.

Lemma g_missing_wf : wf_graph g_missing.
Proof. apply AddResource_wf, NewGraph_wf. Qed.

(** C2, at the failing input: the graph with the single resource [A] that
    requires the undeclared [M] is well formed and has no required-edge
    cycle, yet under every iteration order [TopologicalSort] reports a
    circular dependency instead of returning the order [A]. *)
Theorem TopologicalSort_missing_target_rejected :
  wf_graph g_missing ∧ acyclic g_missing ∧ map_keys (nodes g_missing) = ["A"] ∧
  ∀ s, TopologicalSort s g_missing = Err "circular dependency detected".
Proof.
  split; [apply g_missing_wf|]. split; [apply g_missing_acyclic|].
  split; [reflexivity|]. intros s.
  destruct (TopologicalSort_total s g_missing) as [[order Hok]|Herr]; [|done].
  destruct (TopologicalSort_schedule s sched_id g_missing order Hok) as (o2 & Ho2 & _).
  vm_compute in Ho2. discriminate.
Qed.

Lemma g_masked_cycle_wf : wf_graph g_masked_cycle.
Proof. do 3 apply AddResource_wf. apply NewGraph_wf. Qed.

Lemma g_masked_cycle_BC : req_edge g_masked_cycle "B" "C".
Proof. unfold req_edge. vm_compute. left. Qed.

Lemma g_masked_cycle_CB : req_edge g_masked_cycle "C" "B".
Proof. unfold req_edge. vm_compute. left. Qed.

(** C4, at the failing input: [B] and [C] require each other, so the
    required-edge subgraph has a cycle; [A] requires the undeclared [M1] and
    [M2], which the main loop emits in place of [B] and [C].  The length
    check passes and [TopologicalSort] returns an order instead of the
    cycle error. *)
Theorem TopologicalSort_masked_cycle_accepted :
  wf_graph g_masked_cycle ∧
  tc (req_edge g_masked_cycle) "B" "B" ∧
  TopologicalSort sched_id g_masked_cycle = Ok ["A"; "M1"; "M2"] ∧
  ∀ s, ∃ order, TopologicalSort s g_masked_cycle = Ok order.
Proof.
  split; [apply g_masked_cycle_wf|]. split.
  { eapply tc_l; [apply g_masked_cycle_BC|]. apply tc_once, g_masked_cycle_CB. }
  assert (TopologicalSort sched_id g_masked_cycle = Ok ["A"; "M1"; "M2"]) as H
    by (vm_compute; reflexivity).
  split; [done|]. intros s.
  destruct (TopologicalSort_schedule sched_id s g_masked_cycle _ H) as (o & Ho & _).
  by exists o.
Qed.

(** C3, at the failing input: on the same graph [TopologicalSort] succeeds,
    [B] requires [C] and both are nodes, but neither occurs in the returned
    order, so [B] is not before [C] in it. *)
Theorem TopologicalSort_masked_cycle_order :
  TopologicalSort sched_id g_masked_cycle = Ok ["A"; "M1"; "M2"] ∧
  req_edge g_masked_cycle "B" "C" ∧
  is_node g_masked_cycle "B" ∧ is_node g_masked_cycle "C" ∧
  ¬ before ["A"; "M1"; "M2"] "B" "C".
Proof.
  split; [vm_compute; reflexivity|]. split; [apply g_masked_cycle_BC|].
  split; [vm_compute; eauto|]. split; [vm_compute; eauto|].
  intros (i & j & Hi & _). destruct i as [|[|[|i]]]; simplify_eq.
Qed.

(** ** ValidateDependencies *)

Lemma elem_of_range_items {V} (σ : Shuffle) (m : gmap ResourceID V) k v :
  (k, v) ∈ range_items σ m ↔ m !! k = Some v.
Proof.
  unfold range_items. rewrite list_elem_of_omap. split.
  - intros (k' & _ & Hk). destruct (m !! k') eqn:He; simplify_eq/=. done.
  - intros Hk. exists k. split; [|by rewrite Hk].
    apply elem_of_range_keys. by rewrite Hk.
Qed.

Lemma ValidateLayerDependency_Some from to err :
  ValidateLayerDependency from to = Some err →
  Layer_int from < Layer_int to ∧
  ∀ id, "resource " +:+ id +:+ ": " +:+ err = layer_error id from to.
Proof.
  unfold ValidateLayerDependency. destruct (Layer_int from <? Layer_int to) eqn:Hlt;
    [|done]. intros [= <-]. split; [by apply Z.ltb_lt|done].
Qed.

Lemma ValidateLayerDependency_None from to :
  ValidateLayerDependency from to = None ↔ Layer_int to ≤ Layer_int from.
Proof.
  unfold ValidateLayerDependency. destruct (Layer_int from <? Layer_int to) eqn:Hlt.
  - apply Z.ltb_lt in Hlt. split; [done|lia].
  - apply Z.ltb_ge in Hlt. done.
Qed.

Lemma validate_edges_Some g id L deps err :
  validate_edges g id L deps = Some err →
  names err id ∧
  ∃ b, b ∈ req_targets deps ∧
       (nodes g !! b = None ∨
        ∃ rb, nodes g !! b = Some rb ∧ Layer_int L < Layer_int (GetLayer rb)).
Proof.
  induction deps as [|dep deps IH]; [done|]. cbn [validate_edges].
  rewrite req_targets_cons. destruct (Required dep).
  - destruct (nodes g !! Target dep) as [rb|] eqn:Hb.
    + destruct (ValidateLayerDependency L (GetLayer rb)) as [e|] eqn:Hl.
      * intros [= <-]. apply ValidateLayerDependency_Some in Hl as [Hlt He].
        split; [right; eexists _, _; apply He|].
        exists (Target dep). split; [by left|]. right. by exists rb.
      * intros [Hn (b & Hin & Hv)]%IH. split; [done|].
        exists b. split; [by right|done].
    + intros [= <-]. split; [left; by eexists|].
      exists (Target dep). split; [by left|by left].
  - done.
Qed.

Lemma validate_edges_None g id L deps b :
  validate_edges g id L deps = None → b ∈ req_targets deps →
  ∃ rb, nodes g !! b = Some rb ∧ Layer_int (GetLayer rb) ≤ Layer_int L.
Proof.
  induction deps as [|dep deps IH]; cbn [validate_edges].
  - intros _ Hb. by apply elem_of_nil in Hb.
  - rewrite req_targets_cons. destruct (Required dep); [|done].
    destruct (nodes g !! Target dep) as [rb|] eqn:Hn; [|done].
    destruct (ValidateLayerDependency L (GetLayer rb)) eqn:Hl; [done|].
    intros Hrest [->|Hb]%elem_of_cons; [|by apply IH].
    exists rb. split; [done|]. by apply ValidateLayerDependency_None.
Qed.

Lemma validate_nodes_Some g items err :
  (∀ id r, (id, r) ∈ items → nodes g !! id = Some r) →
  validate_nodes g items = Some err →
  ∃ a, names err a ∧ violates g a.
Proof.
  induction items as [|[id r] items IH]; [done|]. intros Hit. cbn [validate_nodes].
  destruct (validate_edges g id (GetLayer r) (edges_of g id)) as [e|] eqn:He.
  - intros [= <-]. apply validate_edges_Some in He as [Hn (b & Hb & Hv)].
    exists id. split; [done|]. exists r, b. split; [|done].
    apply Hit. by left.
  - apply IH. intros id' r' Hin. apply Hit. by right.
Qed.

Lemma validate_nodes_None g items id r :
  validate_nodes g items = None → (id, r) ∈ items →
  validate_edges g id (GetLayer r) (edges_of g id) = None.
Proof.
  induction items as [|[id' r'] items IH]; cbn [validate_nodes].
  - intros _ Hin. by apply elem_of_nil in Hin.
  - destruct (validate_edges g id' (GetLayer r') (edges_of g id')) eqn:He; [done|].
    intros Hrest [[= -> ->]|Hin]%elem_of_cons; [done|by apply IH].
Qed.

Lemma validate_nodes_violation g σ a :
  violates g a → ∃ err, validate_nodes g (range_items σ (nodes g)) = Some err.
Proof.
  intros (ra & b & Ha & Hab & Hv).
  destruct (validate_nodes g (range_items σ (nodes g))) as [err|] eqn:Hval; [by eexists|].
  exfalso. pose proof (validate_nodes_None g _ a ra Hval) as He.
  rewrite elem_of_range_items in He. specialize (He Ha).
  destruct (validate_edges_None g a _ _ b He Hab) as (rb & Hb & Hle).
  destruct Hv as [Hnone|(rb' & Hb' & Hlt)]; simplify_eq. lia.
Qed.

Lemma names_not_cycle_error id : ¬ names "circular dependency detected" id.
Proof. intros [[t H]|(f & t & H)]; discriminate H. Qed.

(** C8, counterexample: [A] (platform) requires [B] (application), a layer
    violation, and [B] requires [A].  The cycle check runs first, and the
    error it returns does not name [A]. *)
Lemma ValidateDependencies_cycle_reported_first :
  ¬ (∀ s σ g A B rA rB,
       req_edge g A B → nodes g !! A = Some rA → nodes g !! B = Some rB →
       Layer_int (GetLayer rA) < Layer_int (GetLayer rB) →
       ∃ err, ValidateDependencies s σ g = Some err ∧ names err A).
Proof.
  intros H.
  destruct (H sched_id shuffle_id g_upward_cycle "A" "B"
              (service "A" LayerPlatform [dep_on "B"])
              (service "B" LayerApplication [dep_on "A"]))
    as (err & Herr & Hn).
  - unfold req_edge. vm_compute. left.
  - reflexivity.
  - reflexivity.
  - reflexivity.
  - vm_compute in Herr. injection Herr as <-.
    by apply names_not_cycle_error in Hn.
Qed.

(** The outer loop stops at the first node, in the order it visits them,
    whose edges the inner loop rejects. *)
Lemma validate_nodes_first g items err :
  validate_nodes g items = Some err →
  ∃ pre a ra post,
    items = pre ++ (a, ra) :: post ∧
    validate_edges g a (GetLayer ra) (edges_of g a) = Some err ∧
    ∀ x rx, (x, rx) ∈ pre →
            validate_edges g x (GetLayer rx) (edges_of g x) = None.
Proof.
  induction items as [|[id r] items IH]; [done|]. cbn [validate_nodes].
  destruct (validate_edges g id (GetLayer r) (edges_of g id)) as [e|] eqn:He.
  - intros [= <-]. exists [], id, r, items. split; [done|]. split; [done|].
    intros x rx Hin. by apply elem_of_nil in Hin.
  - intros (pre & a & ra & post & -> & Ha & Hpre)%IH.
    exists ((id, r) :: pre), a, ra, post. split; [done|]. split; [done|].
    intros x rx [[= -> ->]|Hin]%elem_of_cons; [done|by apply Hpre].
Qed.

Lemma validate_edges_None_ok g a ra :
  nodes g !! a = Some ra →
  validate_edges g a (GetLayer ra) (edges_of g a) = None → ¬ violates g a.
Proof.
  intros Ha He (ra' & b & Ha' & Hab & Hv).
  destruct (validate_edges_None g a _ _ b He Hab) as (rb & Hb & Hle).
  destruct Hv as [Hnone|(rb' & Hb' & Hlt)]; simplify_eq. lia.
Qed.

(** C8, as amended: once the cycle check has passed, a required edge from
    [A] to a node [B] of a higher layer makes [ValidateDependencies] fail
    with an error naming the first resource, in the order the loop visits
    the node map, that declares a required edge to an undeclared id or to a
    higher layer (so it names [A] when [A] is the only such resource); when
    the cycle check fails, its error is returned and names no resource; and
    when the graph was built through the API, is acyclic, every required
    target is a node and no required edge points to a higher layer, it
    returns no error. *)
Theorem ValidateDependencies_layers s σ g :
  (∀ order A B rA rB,
     TopologicalSort s g = Ok order →
     req_edge g A B → nodes g !! A = Some rA → nodes g !! B = Some rB →
     Layer_int (GetLayer rA) < Layer_int (GetLayer rB) →
     ∃ err pre a ra post,
       ValidateDependencies s σ g = Some err ∧
       range_items σ (nodes g) = pre ++ (a, ra) :: post ∧
       names err a ∧ violates g a ∧
       (∀ x rx, (x, rx) ∈ pre → ¬ violates g x) ∧
       ((∀ a', violates g a' → a' = A) → a = A)) ∧
  (∀ err, TopologicalSort s g = Err err →
     ValidateDependencies s σ g = Some err ∧
     err = "circular dependency detected" ∧ ∀ a, ¬ names err a) ∧
  (wf_graph g → targets_exist g → acyclic g →
   (∀ a b ra rb, req_edge g a b →
      nodes g !! a = Some ra → nodes g !! b = Some rb →
      Layer_int (GetLayer rb) ≤ Layer_int (GetLayer ra)) →
   ValidateDependencies s σ g = None).
Proof.
  split; [|split].
  - intros order A B rA rB Hsort Hab HA HB Hlt.
    assert (violates g A) as Hv.
    { exists rA, B. split; [done|]. split; [done|]. right. by exists rB. }
    destruct (validate_nodes_violation g σ A Hv) as [err Herr].
    destruct (validate_nodes_first g _ err Herr)
      as (pre & a & ra & post & Hitems & Ha & Hpre).
    assert (nodes g !! a = Some ra) as Hra.
    { apply (elem_of_range_items σ). rewrite Hitems. apply elem_of_app. right. by left. }
    apply validate_edges_Some in Ha as [Hn (b & Hb & Hbad)].
    assert (violates g a) as Hva by (by exists ra, b).
    exists err, pre, a, ra, post. unfold ValidateDependencies. rewrite Hsort.
    split; [done|]. split; [done|]. split; [done|]. split; [done|]. split.
    + intros x rx Hin. apply (validate_edges_None_ok g x rx); [|by apply Hpre].
      apply (elem_of_range_items σ). rewrite Hitems. apply elem_of_app. by left.
    + intros Hall. by apply Hall.
  - intros err Hsort. unfold ValidateDependencies. rewrite Hsort.
    split; [done|].
    destruct (TopologicalSort_total s g) as [[order Hok]|Herr]; [congruence|].
    rewrite Hsort in Herr. injection Herr as ->. split; [done|].
    intros a. apply names_not_cycle_error.
  - intros Hwf Ht Hac Hlayers. unfold ValidateDependencies.
    destruct (TopologicalSort_acyclic_ok s g Hwf Ht Hac) as (order & -> & _).
    destruct (validate_nodes g (range_items σ (nodes g))) as [err|] eqn:Hval; [|done].
    exfalso.
    destruct (validate_nodes_Some g (range_items σ (nodes g)) err)
      as (a & _ & Hva); [|done|].
    { intros id r. by rewrite elem_of_range_items. }
    destruct Hva as (ra & b & Ha & Hab & [Hnone|(rb & Hb & Hlt)]).
    + destruct (Ht a b Hab) as [rb Hb]. congruence.
    + specialize (Hlayers a b ra rb Hab Ha Hb). lia.
Qed.

Lemma g_down_edge a b : req_edge g_down a b → a = "A" ∧ b = "B".
Proof.
  unfold req_edge, out, edges_of.
  change (edges g_down) with
    (<["B" := []]> (<["A" := [dep_on "B"]]> (∅ : gmap ResourceID (list Dependency)))).
  rewrite !lookup_insert. case_decide as Hb; simpl.
  - intros Hin. by apply elem_of_nil in Hin.
  - case_decide as Ha; simpl.
    + intros Hin. apply list_elem_of_singleton in Hin. done.
    + rewrite lookup_empty. intros Hin. by apply elem_of_nil in Hin.
Qed.

Lemma g_down_acyclic : acyclic g_down.
Proof.
  intros x Hc. inversion Hc as [? ? Hxy|? y ? Hxy Hyx]; subst.
  - apply g_down_edge in Hxy as [? ?]. congruence.
  - apply g_down_edge in Hxy as [-> ->].
    apply tc_first in Hyx as [z Hz]. by apply g_down_edge in Hz as [? ?].
Qed.

Lemma g_down_targets : targets_exist g_down.
Proof. intros a b [-> ->]%g_down_edge. vm_compute. eauto. Qed.

Lemma g_down_wf : wf_graph g_down.
Proof. do 2 apply AddResource_wf. apply NewGraph_wf. Qed.

Lemma g_two_upward_violators :
  violates g_two_upward "A" ∧ violates g_two_upward "C" ∧ ¬ violates g_two_upward "B".
Proof.
  split; [|split].
  - exists (service "A" LayerPlatform [dep_on "B"]), "B".
    split; [reflexivity|]. split; [unfold req_edge; vm_compute; left|].
    right. exists (service "B" LayerApplication []). split; reflexivity.
  - exists (service "C" LayerFoundation [dep_on "B"]), "B".
    split; [reflexivity|]. split; [unfold req_edge; vm_compute; left|].
    right. exists (service "B" LayerApplication []). split; reflexivity.
  - intros (ra & b & _ & Hb & _). unfold req_edge in Hb. vm_compute in Hb.
    by apply elem_of_nil in Hb.
Qed.

Lemma ValidateDependencies_layers_witness :
  (∃ err pre a ra post,
     ValidateDependencies sched_id shuffle_id g_two_upward = Some err ∧
     range_items shuffle_id (nodes g_two_upward) = pre ++ (a, ra) :: post ∧
     names err a ∧ violates g_two_upward a ∧
     (∀ x rx, (x, rx) ∈ pre → ¬ violates g_two_upward x) ∧
     a = "C") ∧
  (∃ err pre a ra post,
     ValidateDependencies sched_id shuffle_rev g_two_upward = Some err ∧
     range_items shuffle_rev (nodes g_two_upward) = pre ++ (a, ra) :: post ∧
     names err a ∧ violates g_two_upward a ∧
     (∀ x rx, (x, rx) ∈ pre → ¬ violates g_two_upward x) ∧
     a = "A") ∧
  (ValidateDependencies sched_id shuffle_id g_upward_cycle =
     Some "circular dependency detected" ∧
   ∀ a, ¬ names "circular dependency detected" a) ∧
  ValidateDependencies sched_id shuffle_id g_down = None.
Proof.
  destruct g_two_upward_violators as (HvA & HvC & HnB).
  split; [|split; [|split]].
  - destruct (proj1 (ValidateDependencies_layers sched_id shuffle_id g_two_upward)
                ["C"; "A"; "B"] "A" "B"
                (service "A" LayerPlatform [dep_on "B"])
                (service "B" LayerApplication []))
      as (err & pre & a & ra & post & Hvd & Hitems & Hn & Hv & Hpre & _).
    + vm_compute. reflexivity.
    + unfold req_edge. vm_compute. left.
    + reflexivity.
    + reflexivity.
    + reflexivity.
    + exists err, pre, a, ra, post. do 5 (split; [assumption|]).
      change (range_items shuffle_id (nodes g_two_upward)) with
        [("C", service "C" LayerFoundation [dep_on "B"]);
         ("A", service "A" LayerPlatform [dep_on "B"]);
         ("B", service "B" LayerApplication [])] in Hitems.
      destruct pre as [|[x rx] pre]; [by injection Hitems as <- _ _|].
      exfalso. injection Hitems as <- _ _. apply (Hpre "C" rx); [by left|done].
  - destruct (proj1 (ValidateDependencies_layers sched_id shuffle_rev g_two_upward)
                ["C"; "A"; "B"] "A" "B"
                (service "A" LayerPlatform [dep_on "B"])
                (service "B" LayerApplication []))
      as (err & pre & a & ra & post & Hvd & Hitems & Hn & Hv & Hpre & _).
    + vm_compute. reflexivity.
    + unfold req_edge. vm_compute. left.
    + reflexivity.
    + reflexivity.
    + reflexivity.
    + exists err, pre, a, ra, post. do 5 (split; [assumption|]).
      change (range_items shuffle_rev (nodes g_two_upward)) with
        [("B", service "B" LayerApplication []);
         ("A", service "A" LayerPlatform [dep_on "B"]);
         ("C", service "C" LayerFoundation [dep_on "B"])] in Hitems.
      destruct pre as [|[x rx] pre].
      { exfalso. injection Hitems as <- _ _. done. }
      injection Hitems as _ _ Hitems.
      destruct pre as [|[y ry] pre]; [by injection Hitems as <- _ _|].
      exfalso. injection Hitems as <- _ _.
      apply (Hpre "A" ry); [right; by left|done].
  - destruct (proj1 (proj2 (ValidateDependencies_layers sched_id shuffle_id g_upward_cycle))
                "circular dependency detected") as (Hvd & _ & Hno).
    + vm_compute. reflexivity.
    + split; [exact Hvd|exact Hno].
  - apply (proj2 (proj2 (ValidateDependencies_layers sched_id shuffle_id g_down))).
    + exact g_down_wf.
    + exact g_down_targets.
    + exact g_down_acyclic.
    + intros a b ra rb [-> ->]%g_down_edge Ha Hb.
      vm_compute in Ha, Hb. simplify_eq. vm_compute. discriminate.
Defined.

(** ** Drift detection (state.go) *)





(** ** Cleanup (state.go) *)

Lemma graphResources_lookup (rs : list Resource) (m : gmap ResourceID bool) id :
  default false (foldl (λ m r, <[GetID r := true]> m) m rs !! id) = true ↔
  (∃ r, r ∈ rs ∧ GetID r = id) ∨ default false (m !! id) = true.
Proof.
  revert m. induction rs as [|r rs IH]; intros m; cbn [foldl].
  - split; [by right|]. intros [(r & Hr & _)|?]; [|done].
    by apply elem_of_nil in Hr.
  - rewrite IH, lookup_insert. split.
    + intros [(r' & Hr' & Hid)|Hm].
      * left. exists r'. split; [by right|done].
      * case_decide as He; [|by right]. left. exists r. split; [by left|done].
    + intros [(r' & [->|Hr']%elem_of_cons & Hid)|Hm].
      * right. by rewrite decide_True.
      * left. by exists r'.
      * right. by case_decide.
Qed.

Lemma elem_of_GetAllResources σ g r :
  r ∈ GetAllResources σ g ↔ ∃ k, nodes g !! k = Some r.
Proof.
  unfold GetAllResources. rewrite list_elem_of_omap. split.
  - intros (k & _ & Hk). by exists k.
  - intros (k & Hk). exists k. split; [|done].
    apply elem_of_range_keys. by rewrite Hk.
Qed.

Lemma declared_iff_node σ g id :
  wf_graph g → (∃ r, r ∈ GetAllResources σ g ∧ GetID r = id) ↔ is_node g id.
Proof.
  intros [_ Hid]. split.
  - intros (r & (k & Hk)%elem_of_GetAllResources & <-).
    rewrite (Hid k r Hk). by exists r.
  - intros [r Hr]. exists r. split; [|by apply (Hid id r)].
    apply elem_of_GetAllResources. by exists id.
Qed.

Lemma RemoveState_fold l sm :
  let sm' := foldl (λ sm id, RemoveState id sm) sm l in
  stateFile sm' = stateFile sm ∧ sm_graph sm' = sm_graph sm ∧
  ∀ id, state sm' !! id = if decide (id ∈ l) then None else state sm !! id.
Proof.
  revert sm. induction l as [|x l IH]; intros sm; cbn [foldl].
  - split; [done|]. split; [done|]. intros id.
    case_decide as H; [by apply elem_of_nil in H | done].
  - destruct (IH (RemoveState x sm)) as (Hf & Hg & Hst). cbn zeta in *.
    split; [by rewrite Hf|]. split; [by rewrite Hg|]. intros id. rewrite Hst.
    simpl. rewrite lookup_delete.
    destruct (decide (id ∈ l)).
    + rewrite decide_True by (by right). done.
    + destruct (decide (x = id)) as [->|Hne].
      * rewrite decide_True by (by left). done.
      * rewrite decide_False; [done|]. rewrite elem_of_cons. naive_solver.
Qed.


Lemma g_pair_wf : wf_graph g_pair.
Proof. do 2 apply AddResource_wf. apply NewGraph_wf. Qed.


(** ** Batch operations of the apt driver *)

(** C10: with an empty package list, [Install] and [Remove] report that
    all installations (removals) failed: no command ran, and the failure
    count, zero, equals the length of the list. *)
Theorem Apt_empty_batch_fails RunCommand hostName :
  Apt.Install RunCommand hostName [] =
    Some ("all package installations failed on host " +:+ hostName) ∧
  Apt.Remove RunCommand hostName [] =
    Some ("all package removals failed on host " +:+ hostName) ∧
  Apt.results (Apt.run_all RunCommand "sudo apt-get install -y " 0 []
                 {| Apt.results := []; Apt.successCount := 0;
                    Apt.failureCount := 0 |}) = [].
Proof. split; [reflexivity|]. split; reflexivity. Qed.

(** ** Planner *)

Lemma plan_actions_spec E p order acc :
  (∀ id, id ∈ order → ∃ a, plan_one E p id = Ok a) →
  plan_actions E p order acc = Ok (acc ++ (planned E p <$> order)).
Proof.
  revert acc. induction order as [|id order IH]; intros acc Hok; cbn [plan_actions].
  - by rewrite app_nil_r.
  - destruct (Hok id) as [a Ha]; [by left|]. rewrite Ha, IH.
    + rewrite fmap_cons, <- app_assoc. unfold planned at 2. by rewrite Ha.
    + intros id' Hin. apply Hok. by right.
Qed.

Lemma plan_actions_Ok E p order acc acts :
  plan_actions E p order acc = Ok acts →
  (∀ id, id ∈ order → ∃ a, plan_one E p id = Ok a) ∧
  acts = acc ++ (planned E p <$> order).
Proof.
  revert acc. induction order as [|id order IH]; intros acc; cbn [plan_actions].
  - intros [= <-]. split; [|by rewrite app_nil_r].
    intros id Hin. by apply elem_of_nil in Hin.
  - destruct (plan_one E p id) as [a|] eqn:Ha; [|done].
    intros [Hok ->]%IH. split.
    + intros id' [->|Hin]%elem_of_cons; [by exists a | by apply Hok].
    + rewrite fmap_cons, <- app_assoc. unfold planned at 2. by rewrite Ha.
Qed.

Lemma Plan_Ok E s p w plan :
  (Plan E s p w).1 = Ok plan ↔
  ∃ order, TopologicalSort s (p_graph p) = Ok order ∧
           (∀ id, id ∈ order → ∃ a, plan_one E p id = Ok a) ∧
           plan = {| Actions := planned E p <$> order;
                     CreatedAt := clock E (ticks w); PlanGraph := p_graph p |}.
Proof.
  unfold Plan. cbn [time_Now]. split.
  - destruct (TopologicalSort s (p_graph p)) as [order|]; [|done].
    destruct (plan_actions E p order []) as [acts|] eqn:Hacts; [|done].
    apply plan_actions_Ok in Hacts as [Hok ->]. intros [= <-]. by exists order.
  - intros (order & -> & Hok & ->). by rewrite (plan_actions_spec E p order [] Hok).
Qed.

Lemma planResource_expected E p r :
  (DetectDrift E (p_stateManager p) r).2 = None →
  planResource E p r = Ok (expected_action E (p_stateManager p) r).
Proof.
  unfold planResource, expected_action.
  destruct (GetState (p_stateManager p) (GetID r)); [|done].
  destruct (DetectDrift E (p_stateManager p) r) as [[] [e|]]; done.
Qed.

Lemma expected_action_shape E sm r :
  ActType (expected_action E sm r) ≠ ActionDelete ∧
  Changes (expected_action E sm r) = [] ∧
  ActResourceID (expected_action E sm r) = GetID r.
Proof.
  unfold expected_action. destruct (GetState sm (GetID r)); [|done].
  by destruct (DetectDrift E sm r).1.
Qed.

(** C6, counterexample: the graph holds one resource whose configuration
    contains a func value and which already has a state entry with a
    snapshot.  [TopologicalSort] succeeds, drift detection cannot serialize
    the configuration, and [Plan] returns an error and no action. *)
Lemma Plan_drift_error_aborts :
  TopologicalSort sched_id (p_graph p_hooked) = Ok ["x"] ∧
  (Plan env_ok sched_id p_hooked world0).1 =
    Err ("failed to plan resource x: failed to detect drift: " +:+
         "failed to marshal current config: json: unsupported type: func()").
Proof. split; vm_compute; reflexivity. Qed.

Lemma DetectDrift_error_entry E sm r err :
  (DetectDrift E sm r).2 = Some err → is_Some (GetState sm (GetID r)).
Proof.
  unfold DetectDrift. destruct (GetState sm (GetID r)); [by eexists|done].
Qed.

(** The loop body fails on a node exactly when drift detection fails on
    its resource, and then with that error, wrapped twice. *)
Lemma plan_one_drift_error E p id r :
  nodes (p_graph p) !! id = Some r →
  (∀ err, (DetectDrift E (p_stateManager p) r).2 = Some err →
          plan_one E p id =
            Err ("failed to plan resource " +:+ id +:+ ": " +:+
                 ("failed to detect drift: " +:+ err))) ∧
  ((DetectDrift E (p_stateManager p) r).2 = None →
   plan_one E p id = Ok (expected_action E (p_stateManager p) r)).
Proof.
  intros Hr. unfold plan_one, GetResource. rewrite Hr. split.
  - intros err Herr. unfold planResource.
    destruct (DetectDrift_error_entry E _ r err Herr) as [st ->].
    destruct (DetectDrift E (p_stateManager p) r) as [b e]. simpl in Herr.
    subst e. by destruct b.
  - intros Hnone. by rewrite (planResource_expected E p r Hnone).
Qed.

(** The loop of [Plan] stops at the first id on which its body fails. *)
Lemma plan_actions_first_error E p pre id post e : ∀ acc,
  (∀ id', id' ∈ pre → ∃ a, plan_one E p id' = Ok a) →
  plan_one E p id = Err e →
  plan_actions E p (pre ++ id :: post) acc = Err e.
Proof.
  induction pre as [|x pre IH]; intros acc Hpre He; cbn [plan_actions app].
  - by rewrite He.
  - destruct (Hpre x) as [a ->]; [by left|].
    apply IH; [|done]. intros id' Hin. apply Hpre. by right.
Qed.

Lemma first_failing (P : ResourceID → Prop) `{∀ x, Decision (P x)}
    (l : list ResourceID) x :
  x ∈ l → P x →
  ∃ pre y post, l = pre ++ y :: post ∧ P y ∧ ∀ z, z ∈ pre → ¬ P z.
Proof.
  induction l as [|h l IH]; intros Hin HP; [by apply elem_of_nil in Hin|].
  destruct (decide (P h)) as [Hh|Hh].
  - exists [], h, l. split; [done|]. split; [done|].
    intros z Hz. by apply elem_of_nil in Hz.
  - apply elem_of_cons in Hin as [->|Hin]; [done|].
    destruct (IH Hin HP) as (pre & y & post & -> & Hy & Hpre).
    exists (h :: pre), y, post. split; [done|]. split; [done|].
    intros z [->|Hz]%elem_of_cons; [done|by apply Hpre].
Qed.

(** C6, as amended: when every required edge targets a node and
    [TopologicalSort] succeeds, its order lists every node once.  If drift
    detection fails on no resource, [Plan] emits exactly one action per
    node, in the order of the sort: Create without a state entry, Update
    with an entry and drift, NoOp otherwise, with the reasons of the design
    document; no action is a Delete and every Changes list is empty.  If
    drift detection fails on some resource, [Plan] returns no plan but the
    drift error of the first resource in the order of the sort on which it
    fails, wrapped in the two messages of the planner. *)
Theorem Plan_spec E s p w order :
  targets_exist (p_graph p) →
  TopologicalSort s (p_graph p) = Ok order →
  order ≡ₚ map_keys (nodes (p_graph p)) ∧
  ((∀ id r, nodes (p_graph p) !! id = Some r →
            (DetectDrift E (p_stateManager p) r).2 = None) →
   ∃ plan, (Plan E s p w).1 = Ok plan ∧
     Forall2 (λ id a, ∃ r, nodes (p_graph p) !! id = Some r ∧
                           a = expected_action E (p_stateManager p) r)
             order (Actions plan) ∧
     Forall (λ a, ActType a ≠ ActionDelete ∧ Changes a = []) (Actions plan)) ∧
  (∀ id0 r0, nodes (p_graph p) !! id0 = Some r0 →
     (DetectDrift E (p_stateManager p) r0).2 ≠ None →
     ∃ pre id r err post,
       order = pre ++ id :: post ∧
       nodes (p_graph p) !! id = Some r ∧
       (DetectDrift E (p_stateManager p) r).2 = Some err ∧
       (∀ id' r', id' ∈ pre → nodes (p_graph p) !! id' = Some r' →
                  (DetectDrift E (p_stateManager p) r').2 = None) ∧
       (Plan E s p w).1 =
         Err ("failed to plan resource " +:+ id +:+
              ": failed to detect drift: " +:+ err)).
Proof.
  intros Ht Hsort.
  pose proof (TopologicalSort_Ok_perm s _ order Ht Hsort) as Hperm.
  split; [done|]. split.
  - intros Hdrift.
    assert (∀ id, id ∈ order →
              ∃ r, nodes (p_graph p) !! id = Some r ∧
                   plan_one E p id = Ok (expected_action E (p_stateManager p) r)) as Hone.
    { intros id Hin. rewrite Hperm in Hin. apply elem_of_map_keys in Hin as [r Hr].
      exists r. split; [done|]. unfold plan_one, GetResource. rewrite Hr.
      by rewrite (planResource_expected E p r (Hdrift id r Hr)). }
    eexists. split.
    { apply Plan_Ok. exists order. split; [done|]. split; [|done].
      intros id Hin. destruct (Hone id Hin) as (r & _ & Hr). by eexists. }
    cbn [Actions]. clear Hperm Hsort. split.
    + induction order as [|id order IH]; [constructor|].
      rewrite fmap_cons. constructor.
      * destruct (Hone id) as (r & Hr & Hp); [by left|].
        exists r. split; [done|]. unfold planned. by rewrite Hp.
      * apply IH. intros id' Hin. apply Hone. by right.
    + apply Forall_fmap, Forall_forall. intros id Hin.
      destruct (Hone id Hin) as (r & _ & Hp). unfold planned. simpl. rewrite Hp.
      destruct (expected_action_shape E (p_stateManager p) r) as (? & ? & _). done.
  - intros id0 r0 Hr0 Hfail.
    set (P := λ id : ResourceID,
           ∃ r, nodes (p_graph p) !! id = Some r ∧
                (DetectDrift E (p_stateManager p) r).2 ≠ None).
    assert (∀ x, Decision (P x)) as Hdec.
    { intros x. unfold P. destruct (nodes (p_graph p) !! x) as [r|].
      - destruct (DetectDrift E (p_stateManager p) r).2 as [e|] eqn:He.
        + left. exists r. split; [done|]. by rewrite He.
        + right. intros (r' & [= <-] & Hne). done.
      - right. intros (r' & Hr' & _). done. }
    destruct (first_failing P order id0) as (pre & id & post & Hord & (r & Hr & Hne) & Hpre).
    { rewrite Hperm. apply elem_of_map_keys. by exists r0. }
    { by exists r0. }
    destruct (DetectDrift E (p_stateManager p) r).2 as [err|] eqn:Herr; [|done].
    assert (∀ id' r', id' ∈ pre → nodes (p_graph p) !! id' = Some r' →
              (DetectDrift E (p_stateManager p) r').2 = None) as Hnone.
    { intros id' r' Hin Hr'.
      destruct (DetectDrift E (p_stateManager p) r').2 as [e'|] eqn:He'; [|done].
      exfalso. apply (Hpre id' Hin). exists r'. split; [done|]. by rewrite He'. }
    exists pre, id, r, err, post. split; [done|]. split; [done|].
    split; [done|]. split; [done|].
    unfold Plan. cbn [time_Now]. rewrite Hsort, Hord.
    rewrite (plan_actions_first_error E p pre id post
               ("failed to plan resource " +:+ id +:+
                ": failed to detect drift: " +:+ err)); [done| |].
    + intros id' Hin.
      assert (id' ∈ order) as Hin' by (rewrite Hord; apply elem_of_app; by left).
      rewrite Hperm in Hin'. apply elem_of_map_keys in Hin' as [r' Hr'].
      exists (expected_action E (p_stateManager p) r').
      apply (plan_one_drift_error E p id' r' Hr'). by apply (Hnone id' r').
    + by apply (plan_one_drift_error E p id r Hr).
Qed.


Lemma chain_edge cfgB cfgC a b :
  req_edge (chain cfgB cfgC) a b → (a = "A" ∧ b = "B") ∨ (a = "B" ∧ b = "C").
Proof.
  unfold req_edge, out, edges_of.
  change (edges (chain cfgB cfgC)) with
    (<["C" := []]> (<["B" := [dep_on "C"]]> (<["A" := [dep_on "B"]]>
       (∅ : gmap ResourceID (list Dependency))))).
  rewrite !lookup_insert. case_decide as Hc; simpl.
  - intros Hin. by apply elem_of_nil in Hin.
  - case_decide as Hb; simpl.
    + intros Hin. apply list_elem_of_singleton in Hin. by right.
    + case_decide as Ha; simpl.
      * intros Hin. apply list_elem_of_singleton in Hin. by left.
      * rewrite lookup_empty. intros Hin. by apply elem_of_nil in Hin.
Qed.

Lemma chain_targets cfgB cfgC : targets_exist (chain cfgB cfgC).
Proof.
  intros a b [[-> ->]|[-> ->]]%chain_edge; unfold is_node, chain, build;
    cbn [foldl AddResource Validate]; vm_compute; eauto.
Qed.

Lemma chain_node cfgB cfgC id r :
  nodes (chain cfgB cfgC) !! id = Some r →
  (id = "A" ∧ r = configured "A" LayerApplication [dep_on "B"] [("port", ANumber 80)]) ∨
  (id = "B" ∧ r = configured "B" LayerPlatform [dep_on "C"] cfgB) ∨
  (id = "C" ∧ r = configured "C" LayerFoundation [] cfgC).
Proof.
  change (nodes (chain cfgB cfgC)) with
    (<["C" := configured "C" LayerFoundation [] cfgC]>
       (<["B" := configured "B" LayerPlatform [dep_on "C"] cfgB]>
          (<["A" := configured "A" LayerApplication [dep_on "B"] [("port", ANumber 80)]]>
             (∅ : gmap ResourceID Resource)))).
  rewrite !lookup_insert. case_decide as Hc; simpl.
  - intros [= <-]. right. right. done.
  - case_decide as Hb; simpl.
    + intros [= <-]. right. left. done.
    + case_decide as Ha; simpl.
      * intros [= <-]. left. done.
      * by rewrite lookup_empty.
Qed.

Lemma Plan_spec_witness :
  (["A"; "B"; "C"] ≡ₚ map_keys (nodes g_chain) ∧
   ∃ plan, (Plan env_ok sched_id p_chain world0).1 = Ok plan ∧
     Forall2 (λ id a, ∃ r, nodes g_chain !! id = Some r ∧
                           a = expected_action env_ok (p_stateManager p_chain) r)
             ["A"; "B"; "C"] (Actions plan) ∧
     Forall (λ a, ActType a ≠ ActionDelete ∧ Changes a = []) (Actions plan) ∧
     Actions plan = [action_of "A" ActionCreate "resource not in state";
                     action_of "B" ActionUpdate "configuration drift detected";
                     action_of "C" ActionNoOp "resource up to date"]) ∧
  (∃ pre id r err post,
     ["A"; "B"; "C"] = pre ++ id :: post ∧
     nodes g_chain_hooked !! id = Some r ∧
     (DetectDrift env_ok (p_stateManager p_chain_hooked) r).2 = Some err ∧
     (∀ id' r', id' ∈ pre → nodes g_chain_hooked !! id' = Some r' →
                (DetectDrift env_ok (p_stateManager p_chain_hooked) r').2 = None) ∧
     (Plan env_ok sched_id p_chain_hooked world0).1 =
       Err ("failed to plan resource " +:+ id +:+
            ": failed to detect drift: " +:+ err)).
Proof.
  split.
  - destruct (Plan_spec env_ok sched_id p_chain world0 ["A"; "B"; "C"])
      as (Hperm & Hok & _).
    + apply chain_targets.
    + vm_compute. reflexivity.
    + split; [exact Hperm|].
      destruct Hok as (plan & Hplan & Hacts & Hshape).
      * intros id r [[-> ->]|[[-> ->]|[-> ->]]]%chain_node; vm_compute; reflexivity.
      * exists plan. split; [exact Hplan|]. split; [exact Hacts|].
        split; [exact Hshape|].
        vm_compute in Hplan. injection Hplan as <-. vm_compute. reflexivity.
  - destruct (Plan_spec env_ok sched_id p_chain_hooked world0 ["A"; "B"; "C"])
      as (_ & _ & Hfail).
    + apply chain_targets.
    + vm_compute. reflexivity.
    + apply (Hfail "C" (configured "C" LayerFoundation [] [("size", ANumber 1); ("hook", AFunc)])).
      * vm_compute. reflexivity.
      * vm_compute. discriminate.
Defined.

(** C7, counterexample: two independent resources, nothing in the state
    store.  The first [Plan] sees the keys of [inDegree] in one order, the
    second in the reverse order, and the two action lists differ. *)
Lemma Plan_twice_differs :
  ∃ plan1 plan2,
    (Plan env_ok sched_id p_pair world0).1 = Ok plan1 ∧
    (Plan env_ok sched_rev p_pair (Plan env_ok sched_id p_pair world0).2).1 = Ok plan2 ∧
    ActResourceID <$> Actions plan1 = ["a"; "b"] ∧
    ActResourceID <$> Actions plan2 = ["b"; "a"] ∧
    Actions plan1 ≠ Actions plan2.
Proof.
  eexists _, _. split; [vm_compute; reflexivity|].
  split; [vm_compute; reflexivity|].
  split; [reflexivity|]. split; [reflexivity|].
  intros H. apply (f_equal (fmap ActResourceID)) in H. discriminate H.
Qed.

(** C7, as amended: with the graph and the state store unchanged, if one
    [Plan] succeeds then so does the next; the two action lists hold the
    same actions (same resources, types and reasons), possibly in a
    different order, and they are identical when both calls iterate their
    maps in the same order. *)
Theorem Plan_idempotent E s1 s2 p w1 w2 plan1 :
  (Plan E s1 p w1).1 = Ok plan1 →
  ∃ plan2, (Plan E s2 p w2).1 = Ok plan2 ∧
           Actions plan1 ≡ₚ Actions plan2 ∧
           (s1 = s2 → Actions plan1 = Actions plan2).
Proof.
  intros (order1 & Hsort1 & Hok1 & ->)%Plan_Ok.
  destruct (TopologicalSort_schedule s1 s2 _ order1 Hsort1) as (order2 & Hsort2 & Hperm).
  eexists. split.
  { apply Plan_Ok. exists order2. split; [done|]. split; [|done].
    intros id Hin. apply Hok1. by rewrite Hperm. }
  cbn [Actions]. split; [by rewrite Hperm|].
  intros <-. rewrite Hsort1 in Hsort2. by injection Hsort2 as <-.
Qed.

Lemma Plan_idempotent_witness :
  ∃ plan2, (Plan env_ok sched_rev p_pair (Plan env_ok sched_id p_pair world0).2).1
             = Ok plan2 ∧
    [action_of "a" ActionCreate "resource not in state";
     action_of "b" ActionCreate "resource not in state"] ≡ₚ Actions plan2 ∧
    (sched_id = sched_rev →
     [action_of "a" ActionCreate "resource not in state";
      action_of "b" ActionCreate "resource not in state"] = Actions plan2).
Proof.
  apply (Plan_idempotent env_ok sched_id sched_rev p_pair world0 _
           {| Actions := [action_of "a" ActionCreate "resource not in state";
                          action_of "b" ActionCreate "resource not in state"];
              CreatedAt := 0; PlanGraph := g_pair |}).
  vm_compute. reflexivity.
Defined.

(** ** Executor *)

Lemma executeAction_success E e action sm w x sm' w' :
  executeAction E e action sm w = (x, None, sm', w') → ExError x = None.
Proof.
  unfold executeAction. cbn [time_Now].
  destruct (GetResource (e_graph e) (ActResourceID action)) as [r|]; [|done].
  destruct (ActType action);
    repeat match goal with
           | |- context [MarkFailed ?E ?r ?m ?s ?w] =>
               destruct (MarkFailed E r m s w) as [[? ?] ?]
           | |- context [MarkApplied ?E ?r ?s ?w] =>
               destruct (MarkApplied E r s w) as [[? ?] [?|]]
           | |- context [Resource_Apply ?E ?c ?r] => destruct (Resource_Apply E c r)
           | |- context [Resource_Destroy ?E ?c ?r] => destruct (Resource_Destroy E c r)
           end;
    cbn [time_Now]; intros [= <- _ _] || intros [= ?]; done.
Qed.

Lemma execute_actions_no_failure E e actions done_ sm w done' fail sm' w' :
  Forall (λ x, ExError x = None) done_ →
  execute_actions E e actions done_ sm w = (done', fail, sm', w') →
  Forall (λ x, ExError x = None) done'.
Proof.
  revert done_ sm w. induction actions as [|a actions IH]; intros done_ sm w Hd;
    cbn [execute_actions].
  - by intros [= <- _ _ _].
  - destruct (executeAction E e a sm w) as [[[x [err|]] sm1] w1] eqn:Hx.
    + by intros [= <- _ _ _].
    + apply IH. apply Forall_app. split; [done|].
      constructor; [|done]. by eapply executeAction_success.
Qed.

(** Whatever the plan and the environment, no outcome with an error is
    ever part of the result of [Execute]. *)
Lemma Execute_records_no_failure E v e plan sm w res err sm' w' :
  Execute E v e plan sm w = (Some res, err, sm', w') → GetFailureCount res = 0%nat.
Proof.
  unfold Execute. cbn [time_Now]. destruct (ValidatePlan v plan); [done|].
  destruct (execute_actions E e (Actions plan) [] sm _)
    as [[[done' fail] sm1] w1] eqn:Hrun.
  pose proof (execute_actions_no_failure _ _ _ _ _ _ _ _ _ _ (List.Forall_nil _) Hrun)
    as Hall.
  assert (length (filter (λ a, ExError a ≠ None) done') = 0%nat) as Hz.
  { clear Hrun. induction Hall as [|x l Hx _ IH]; [done|].
    rewrite filter_cons, decide_False; [done|]. by intros ?. }
  destruct fail as [[id msg]|]; intros [= <- _ _ _]; exact Hz.
Qed.

(** C1, at the failing input: a plan of three Create actions whose second
    resource is a service, whose [Apply] fails.  [Execute] returns
    [Success = false], the third action is not attempted and the failed
    resource is persisted as Failed with the error text under "error"; but
    the result holds one outcome only, the successful first one: the failed
    outcome is dropped by the early return. *)
Theorem Execute_second_apply_fails :
  ∃ res err sm' w',
    run_three = (Some res, Some err, sm', w') ∧
    Success res = false ∧
    length (ResActions res) = 1%nat ∧
    GetSuccessCount res = 1%nat ∧ GetFailureCount res = 0%nat ∧
    ResError res = Some "action failed: service management not yet implemented" ∧
    Status <$> state sm' !! "svc" = Some StateFailed ∧
    (state sm' !! "svc") ≫= (λ st, Metadata st !! "error") =
      Some (AString "service management not yet implemented") ∧
    fs w' !! ".settle/state.json" = Some (state sm') ∧
    Status <$> state sm' !! "package:apt:nginx" = Some StateApplied ∧
    state sm' !! "package:apt:curl" = None.
Proof.
  eexists _, _, _, _. split; [vm_compute; reflexivity|].
  repeat split; vm_compute; reflexivity.
Qed.

(** * Further properties of the code *)

(** ** Graph construction and queries *)

Lemma Validate_None r : Validate r = None ↔ ID r ≠ "" ∧ Type_ r ≠ "".
Proof. unfold Validate. repeat case_decide; naive_solver. Qed.

Lemma edges_of_insert g k deps id (ns : gmap ResourceID Resource) :
  edges_of {| nodes := ns; edges := <[k := deps]> (edges g) |} id =
  if decide (k = id) then deps else edges_of g id.
Proof. unfold edges_of. simpl. rewrite lookup_insert. by case_decide. Qed.

(** X1: [AddResource] rejects a resource with an empty id or type and
    leaves the graph as it was; otherwise the resource and its declared
    dependencies can be read back under its id, every other node and edge
    list is untouched, and adding the same resource again changes nothing. *)
Theorem AddResource_roundtrip r g :
  (ID r = "" ∨ Type_ r = "" →
   (AddResource r g).1 = g ∧ is_Some (AddResource r g).2) ∧
  (ID r ≠ "" ∧ Type_ r ≠ "" →
   (AddResource r g).2 = None ∧
   GetResource (AddResource r g).1 (GetID r) = Some r ∧
   Graph_GetDependencies (AddResource r g).1 (GetID r) = GetDependencies r ∧
   (∀ id, id ≠ GetID r →
      GetResource (AddResource r g).1 id = GetResource g id ∧
      Graph_GetDependencies (AddResource r g).1 id = Graph_GetDependencies g id) ∧
   AddResource r (AddResource r g).1 = AddResource r g).
Proof.
  split.
  - intros Hbad. unfold AddResource.
    destruct (Validate r) as [err|] eqn:Hv; [by eauto|].
    apply Validate_None in Hv. naive_solver.
  - intros Hok%Validate_None. unfold AddResource. rewrite Hok. cbn [fst snd].
    split; [done|]. unfold GetResource, Graph_GetDependencies. cbn [nodes].
    split; [by rewrite lookup_insert_eq|].
    split; [by rewrite edges_of_insert, decide_True|].
    split.
    + intros id Hne. rewrite lookup_insert_ne by done.
      by rewrite edges_of_insert, decide_False.
    + cbn [nodes edges]. by rewrite !insert_insert_eq.
Qed.

Lemma AddResource_roundtrip_witness :
  ((AddResource (service "" LayerPlatform []) g_pair).1 = g_pair ∧
   is_Some (AddResource (service "" LayerPlatform []) g_pair).2) ∧
  GetResource (AddResource (service "c" LayerPlatform [dep_on "a"]) g_pair).1 "c"
    = Some (service "c" LayerPlatform [dep_on "a"]).
Proof.
  split.
  - apply (proj1 (AddResource_roundtrip (service "" LayerPlatform []) g_pair)).
    left. reflexivity.
  - apply (proj2 (AddResource_roundtrip (service "c" LayerPlatform [dep_on "a"]) g_pair)).
    split; discriminate.
Defined.

Lemma GetDependents_elem σ g id a :
  a ∈ GetDependents σ g id ↔ ∃ dep, dep ∈ edges_of g a ∧ Target dep = id.
Proof.
  unfold GetDependents. rewrite list_elem_of_filter, elem_of_range_keys, Exists_exists.
  split; [by intros [? _]|]. intros (dep & Hin & Ht). split; [by exists dep|].
  unfold edges_of in Hin. destruct (edges g !! a); [done|].
  by apply elem_of_nil in Hin.
Qed.

(** X2: [GetDependents id] lists exactly the resources that declare an
    edge to [id], required or not, each once whatever the number of its
    edges to [id]; every resource with a required edge to [id] is among
    them. *)
Theorem GetDependents_spec σ g id :
  NoDup (GetDependents σ g id) ∧
  (∀ a, a ∈ GetDependents σ g id ↔
        ∃ dep, dep ∈ Graph_GetDependencies g a ∧ Target dep = id) ∧
  (∀ a, req_edge g a id → a ∈ GetDependents σ g id).
Proof.
  split; [apply NoDup_filter, NoDup_range_keys|].
  split; [apply GetDependents_elem|].
  intros a Ha. apply GetDependents_elem. unfold req_edge, out, req_targets in Ha.
  apply list_elem_of_fmap in Ha as (dep & -> & Hin).
  apply list_elem_of_filter in Hin as [_ Hin]. by exists dep.
Qed.

Lemma edges_of_Remove id g k :
  edges_of (RemoveResource id g) k =
  if decide (k = id) then [] else filter (λ dep, Target dep ≠ id) (edges_of g k).
Proof.
  unfold edges_of, RemoveResource. cbn [edges].
  rewrite lookup_fmap, lookup_delete. case_decide as Hk.
  - by rewrite decide_True.
  - rewrite decide_False by done. by destruct (edges g !! k).
Qed.

(** X3: after [RemoveResource id] the node is gone, no remaining edge
    list mentions [id] (so nothing depends on it any more), and every
    other node keeps its resource and its edges to other targets. *)
Theorem RemoveResource_no_dangling σ id g :
  GetResource (RemoveResource id g) id = None ∧
  Graph_GetDependencies (RemoveResource id g) id = [] ∧
  GetDependents σ (RemoveResource id g) id = [] ∧
  (∀ k dep, dep ∈ Graph_GetDependencies (RemoveResource id g) k → Target dep ≠ id) ∧
  (∀ k, k ≠ id →
     GetResource (RemoveResource id g) k = GetResource g k ∧
     Graph_GetDependencies (RemoveResource id g) k =
       filter (λ dep, Target dep ≠ id) (Graph_GetDependencies g k)).
Proof.
  unfold GetResource, Graph_GetDependencies.
  assert (∀ k dep, dep ∈ edges_of (RemoveResource id g) k → Target dep ≠ id) as Hno.
  { intros k dep. rewrite edges_of_Remove. case_decide as Hk.
    - intros Hin. by apply elem_of_nil in Hin.
    - by intros [? _]%list_elem_of_filter. }
  split; [apply lookup_delete_eq|].
  split; [by rewrite edges_of_Remove, decide_True|].
  split.
  - destruct (GetDependents σ (RemoveResource id g) id) as [|a l] eqn:Hd; [done|].
    exfalso. assert (a ∈ GetDependents σ (RemoveResource id g) id) as Ha
      by (rewrite Hd; by left).
    apply GetDependents_elem in Ha as (dep & Hin & Ht). by apply (Hno a dep).
  - split; [done|]. intros k Hk. split.
    + cbn [RemoveResource nodes]. by rewrite lookup_delete_ne.
    + by rewrite edges_of_Remove, decide_False.
Qed.

Lemma req_edge_Remove id g a b :
  req_edge (RemoveResource id g) a b → req_edge g a b ∧ a ≠ id ∧ b ≠ id.
Proof.
  unfold req_edge, out. rewrite edges_of_Remove. case_decide as Ha.
  - intros Hin. by apply elem_of_nil in Hin.
  - unfold req_targets. intros (dep & -> & Hin)%list_elem_of_fmap.
    apply list_elem_of_filter in Hin as [Hreq Hin].
    apply list_elem_of_filter in Hin as [Hne Hin].
    split; [|done]. apply list_elem_of_fmap. exists dep. split; [done|].
    by apply list_elem_of_filter.
Qed.

(** X4: removing a resource keeps a valid graph valid: the two maps keep
    the same keys, every required edge still targets a node, no cycle
    appears, and [TopologicalSort] returns the remaining nodes. *)
Theorem RemoveResource_keeps_valid s id g :
  wf_graph g → targets_exist g → acyclic g →
  wf_graph (RemoveResource id g) ∧ targets_exist (RemoveResource id g) ∧
  acyclic (RemoveResource id g) ∧
  ∃ order, TopologicalSort s (RemoveResource id g) = Ok order ∧
           ∀ k, k ∈ order ↔ is_node g k ∧ k ≠ id.
Proof.
  intros Hwf Ht Hac.
  assert (wf_graph (RemoveResource id g)) as Hwf' by by apply RemoveResource_wf.
  assert (targets_exist (RemoveResource id g)) as Ht'.
  { intros a b (Hab & _ & Hb)%req_edge_Remove. unfold is_node. cbn [RemoveResource nodes].
    rewrite lookup_delete_ne by done. by eapply Ht. }
  assert (acyclic (RemoveResource id g)) as Hac'.
  { intros x Hx. apply (Hac x).
    apply (tc_congruence (λ k, k) (req_edge g)) in Hx; [done|].
    by intros a b (? & _)%req_edge_Remove. }
  split; [done|]. split; [done|]. split; [done|].
  destruct (TopologicalSort_acyclic_ok s _ Hwf' Ht' Hac') as (order & Hsort & Hperm & _).
  exists order. split; [done|]. intros k. rewrite Hperm, elem_of_map_keys.
  cbn [RemoveResource nodes]. rewrite lookup_delete. unfold is_node.
  case_decide as Hk; [subst; split; [by intros [? ?]|by intros [_ ?]]|].
  naive_solver.
Qed.

Lemma RemoveResource_keeps_valid_witness :
  wf_graph (RemoveResource "B" g_down) ∧ targets_exist (RemoveResource "B" g_down) ∧
  acyclic (RemoveResource "B" g_down) ∧
  ∃ order, TopologicalSort sched_id (RemoveResource "B" g_down) = Ok order ∧
           ∀ k, k ∈ order ↔ is_node g_down k ∧ k ≠ "B".
Proof.
  exact (RemoveResource_keeps_valid sched_id "B" g_down
           g_down_wf g_down_targets g_down_acyclic).
Defined.

(** ** TopologicalSort *)

(** X5: on every graph [TopologicalSort] terminates, and its only error
    is the circular-dependency error.  An order it returns has no
    duplicates, as many entries as the graph has nodes, only nodes and
    targets of required edges as entries, and every entry comes after all
    the resources that require it. *)
Theorem TopologicalSort_sound s g :
  match TopologicalSort s g with
  | Ok order =>
      NoDup order ∧ length order = size (nodes g) ∧
      (∀ k, k ∈ order → in_inDegree g k) ∧
      (∀ a b, req_edge g a b → b ∈ order → before order a b)
  | Err e => e = "circular dependency detected"
  end.
Proof.
  destruct (TopologicalSort_cases s g) as (res & _ & Hpost & [[Hlen ->]|[_ ->]]);
    [|done].
  split; [by apply Hpost|]. split; [done|]. split; [by apply Hpost|].
  intros a b. by apply post_edge_before.
Qed.

(** X6: on a graph built through the API whose required edges all target
    nodes, [TopologicalSort] succeeds exactly when the required edges form
    no cycle, and the order it returns holds every node id once, each
    resource before the resources it requires. *)
Theorem TopologicalSort_iff_acyclic s g :
  wf_graph g → targets_exist g →
  (acyclic g ↔ ∃ order, TopologicalSort s g = Ok order) ∧
  (∀ order, TopologicalSort s g = Ok order →
     order ≡ₚ map_keys (nodes g) ∧ NoDup order ∧
     ∀ a b, req_edge g a b → before order a b).
Proof.
  intros Hwf Ht. split.
  - split.
    + intros Hac. destruct (TopologicalSort_acyclic_ok s g Hwf Ht Hac) as (o & Ho & _).
      by exists o.
    + intros [order Hok] x Hx.
      rewrite (TopologicalSort_cycle_err s g x Hwf Ht Hx) in Hok. done.
  - intros order Hok. split; [by eapply TopologicalSort_Ok_perm|].
    split; [apply TopologicalSort_Ok in Hok as [Hpost _]; by apply Hpost|].
    intros a b. by eapply TopologicalSort_order.
Qed.

Lemma TopologicalSort_iff_acyclic_witness :
  (acyclic g_down ↔ ∃ order, TopologicalSort sched_rev g_down = Ok order) ∧
  (∀ order, TopologicalSort sched_rev g_down = Ok order →
     order ≡ₚ map_keys (nodes g_down) ∧ NoDup order ∧
     ∀ a b, req_edge g_down a b → before order a b).
Proof.
  exact (TopologicalSort_iff_acyclic sched_rev g_down g_down_wf g_down_targets).
Defined.

(** X7: the iteration order of the maps decides only the order of the
    result: two runs on the same graph both fail with the same error, or
    both succeed with the same ids. *)
Theorem TopologicalSort_order_independent s1 s2 g :
  match TopologicalSort s1 g, TopologicalSort s2 g with
  | Ok order1, Ok order2 => order1 ≡ₚ order2
  | Err e1, Err e2 => e1 = e2
  | _, _ => False
  end.
Proof.
  destruct (TopologicalSort s1 g) as [o1|e1] eqn:H1.
  - destruct (TopologicalSort_schedule s1 s2 g o1 H1) as (o2 & -> & Hperm). done.
  - destruct (TopologicalSort s2 g) as [o2|e2] eqn:H2.
    + destruct (TopologicalSort_schedule s2 s1 g o2 H2) as (o1 & Ho1 & _). congruence.
    + destruct (TopologicalSort_total s1 g) as [[? ?]|He1]; [congruence|].
      destruct (TopologicalSort_total s2 g) as [[? ?]|He2]; congruence.
Qed.

(** ** Validation *)

(** X8: on a graph built through the API, [ValidateDependencies] returns
    no error exactly when the required edges form no cycle, every required
    edge targets a node, and no resource requires a resource of a higher
    layer; the iteration orders play no part in the verdict. *)
Theorem ValidateDependencies_accepts_iff s σ g :
  wf_graph g →
  (ValidateDependencies s σ g = None ↔
   acyclic g ∧ targets_exist g ∧
   ∀ a b ra rb, req_edge g a b →
     nodes g !! a = Some ra → nodes g !! b = Some rb →
     Layer_int (GetLayer rb) ≤ Layer_int (GetLayer ra)).
Proof.
  intros Hwf. unfold ValidateDependencies. split.
  - destruct (TopologicalSort s g) as [order|] eqn:Hsort; [|done]. intros Hval.
    assert (∀ a b ra, req_edge g a b → nodes g !! a = Some ra →
              ∃ rb, nodes g !! b = Some rb ∧
                    Layer_int (GetLayer rb) ≤ Layer_int (GetLayer ra)) as Hedge.
    { intros a b ra Hab Ha. eapply validate_edges_None; [|exact Hab].
      eapply validate_nodes_None; [exact Hval|]. by apply elem_of_range_items. }
    assert (targets_exist g) as Ht.
    { intros a b Hab. destruct Hwf as [Hk _].
      destruct (proj1 (Hk a)) as [ra Ha]; [by eapply out_is_source|].
      destruct (Hedge a b ra Hab Ha) as (rb & Hb & _). by exists rb. }
    split; [|split; [done|]].
    + intros x Hx. by rewrite (TopologicalSort_cycle_err s g x Hwf Ht Hx) in Hsort.
    + intros a b ra rb Hab Ha Hb.
      destruct (Hedge a b ra Hab Ha) as (rb' & Hb' & Hle). congruence.
  - intros (Hac & Ht & Hlayers).
    destruct (TopologicalSort_acyclic_ok s g Hwf Ht Hac) as (order & -> & _).
    destruct (validate_nodes g (range_items σ (nodes g))) as [err|] eqn:Hval; [|done].
    exfalso.
    destruct (validate_nodes_Some g (range_items σ (nodes g)) err)
      as (a & _ & Hva); [|done|].
    { intros id r. by rewrite elem_of_range_items. }
    destruct Hva as (ra & b & Ha & Hab & [Hnone|(rb & Hb & Hlt)]).
    + destruct (Ht a b Hab) as [rb Hb]. congruence.
    + specialize (Hlayers a b ra rb Hab Ha Hb). lia.
Qed.

Lemma ValidateDependencies_accepts_iff_witness :
  ValidateDependencies sched_rev shuffle_rev g_down = None ↔
  acyclic g_down ∧ targets_exist g_down ∧
  ∀ a b ra rb, req_edge g_down a b →
    nodes g_down !! a = Some ra → nodes g_down !! b = Some rb →
    Layer_int (GetLayer rb) ≤ Layer_int (GetLayer ra).
Proof. exact (ValidateDependencies_accepts_iff sched_rev shuffle_rev g_down g_down_wf). Defined.

(** X9: the first check of [ValidatePlan] never decides: a plan is
    accepted exactly when [ValidateDependencies] accepts its graph. *)
Theorem ValidatePlan_iff_ValidateDependencies v plan :
  ValidatePlan v plan = None ↔
  ValidateDependencies (vs_deps_sort v) (vs_deps_nodes v) (PlanGraph plan) = None.
Proof.
  unfold ValidatePlan. split.
  - destruct (TopologicalSort (vs_sort v) (PlanGraph plan)); [|done].
    by destruct (ValidateDependencies _ _ _).
  - intros Hvd. rewrite Hvd.
    destruct (TopologicalSort (vs_sort v) (PlanGraph plan)) as [o|e] eqn:Hs; [done|].
    exfalso. unfold ValidateDependencies in Hvd.
    destruct (TopologicalSort (vs_deps_sort v) (PlanGraph plan)) as [o2|] eqn:Hs2; [|done].
    destruct (TopologicalSort_schedule _ (vs_sort v) _ o2 Hs2) as (o1 & Ho1 & _).
    congruence.
Qed.

(** ** Planner, continued *)

Lemma planResource_shape E p r a :
  planResource E p r = Ok a →
  ActResourceID a = GetID r ∧ ActType a ≠ ActionDelete ∧ Changes a = [].
Proof.
  unfold planResource. destruct (GetState (p_stateManager p) (GetID r)).
  - destruct (DetectDrift E (p_stateManager p) r) as [[] [e|]]; intros [= <-]; done.
  - by intros [= <-].
Qed.

Lemma plan_one_Ok E p id a :
  plan_one E p id = Ok a ↔
  ∃ r, nodes (p_graph p) !! id = Some r ∧ planResource E p r = Ok a.
Proof.
  unfold plan_one, GetResource. split.
  - destruct (nodes (p_graph p) !! id) as [r|]; [|done].
    destruct (planResource E p r) as [a'|] eqn:Hp; [|done].
    intros [= <-]. by exists r.
  - intros (r & -> & ->). done.
Qed.

Lemma count_by_type (l : list Action) :
  (length (filter (λ a, ActType a = ActionCreate) l) +
   length (filter (λ a, ActType a = ActionUpdate) l) +
   length (filter (λ a, ActType a = ActionNoOp) l) +
   length (filter (λ a, ActType a = ActionDelete) l) = length l)%nat.
Proof.
  induction l as [|a l IH]; [done|]. rewrite !filter_cons.
  destruct (ActType a); repeat case_decide; try done; simpl; lia.
Qed.

Lemma no_delete_filter (l : list Action) :
  Forall (λ a, ActType a ≠ ActionDelete ∧ Changes a = []) l →
  filter (λ a, ActType a = ActionDelete) l = [].
Proof.
  induction 1 as [|a l [Ha _] _ IH]; [done|].
  by rewrite filter_cons, decide_False.
Qed.

(** X10: whenever [Plan] returns a plan for a graph built through the
    API, the plan holds exactly one action per node and none for anything
    else, no action is a Delete, every Changes list is empty, and the
    Create, Update and NoOp counts add up to the number of nodes. *)
Theorem Plan_one_action_per_node E s p w plan :
  wf_graph (p_graph p) →
  (Plan E s p w).1 = Ok plan →
  PlanGraph plan = p_graph p ∧
  NoDup (ActResourceID <$> Actions plan) ∧
  ActResourceID <$> Actions plan ≡ₚ map_keys (nodes (p_graph p)) ∧
  Forall (λ a, ActType a ≠ ActionDelete ∧ Changes a = []) (Actions plan) ∧
  (GetActionCount plan ActionCreate + GetActionCount plan ActionUpdate +
   GetActionCount plan ActionNoOp = size (nodes (p_graph p)))%nat.
Proof.
  intros [_ Hid] (order & Hsort & Hok & ->)%Plan_Ok. cbn [PlanGraph Actions].
  apply TopologicalSort_Ok in Hsort as [Hpost Hlen].
  assert (∀ id, id ∈ order →
            ∃ r, nodes (p_graph p) !! id = Some r ∧
                 planResource E p r = Ok (planned E p id) ∧ GetID r = id) as Hone.
  { intros id Hin. destruct (Hok id Hin) as [a Ha]. unfold planned. rewrite Ha.
    apply plan_one_Ok in Ha as (r & Hr & Hp). exists r. eauto. }
  assert (ActResourceID <$> (planned E p <$> order) = order) as Hids.
  { clear Hlen Hpost Hok. induction order as [|id order IH]; [done|].
    rewrite !fmap_cons. f_equal.
    - destruct (Hone id) as (r & _ & Hp & Hr); [by left|].
      apply planResource_shape in Hp as (-> & _). done.
    - apply IH. intros id' Hin. apply Hone. by right. }
  assert (Forall (λ a, ActType a ≠ ActionDelete ∧ Changes a = [])
            (planned E p <$> order)) as Hshape.
  { apply Forall_fmap, Forall_forall. intros id Hin.
    destruct (Hone id Hin) as (r & _ & Hp & _).
    apply planResource_shape in Hp as (_ & ? & ?). done. }
  split; [done|]. rewrite Hids. split; [by apply Hpost|]. split.
  - apply submseteq_length_Permutation; [|rewrite length_map_keys; lia].
    apply NoDup_submseteq; [by apply Hpost|]. intros id Hin.
    destruct (Hone id Hin) as (r & Hr & _). apply elem_of_map_keys. by exists r.
  - split; [done|]. unfold GetActionCount. cbn [Actions].
    pose proof (count_by_type (planned E p <$> order)) as Hc.
    rewrite length_fmap, Hlen in Hc.
    rewrite (no_delete_filter _ Hshape) in Hc. simpl in Hc. lia.
Qed.

Lemma Plan_one_action_per_node_witness :
  ∃ plan, (Plan env_ok sched_rev p_pair world0).1 = Ok plan ∧
    PlanGraph plan = g_pair ∧
    NoDup (ActResourceID <$> Actions plan) ∧
    ActResourceID <$> Actions plan ≡ₚ map_keys (nodes g_pair) ∧
    Forall (λ a, ActType a ≠ ActionDelete ∧ Changes a = []) (Actions plan) ∧
    (GetActionCount plan ActionCreate + GetActionCount plan ActionUpdate +
     GetActionCount plan ActionNoOp = size (nodes g_pair))%nat.
Proof.
  eexists. split; [vm_compute; reflexivity|].
  apply (Plan_one_action_per_node env_ok sched_rev p_pair world0 _ g_pair_wf).
  vm_compute. reflexivity.
Defined.





(** ** State store, continued *)


(** X12: [MarkFailed] replaces the entry of the resource by a Failed one
    that holds the error text and no configuration snapshot, and touches no
    other entry; so the next drift check reports drift and the planner
    plans an Update for it, whether or not the write to disk succeeded. *)
Theorem MarkFailed_replanned E r msg sm w g :
  (∃ now, state (MarkFailed E r msg sm w).1.1 !! GetID r =
          Some {| Status := StateFailed; LastApplied := now; Checksum := "";
                  Metadata := {[ "error" := AString msg ]} |}) ∧
  (∀ id, id ≠ GetID r →
         state (MarkFailed E r msg sm w).1.1 !! id = state sm !! id) ∧
  DetectDrift E (MarkFailed E r msg sm w).1.1 r = (true, None) ∧
  planResource E {| p_graph := g; p_stateManager := (MarkFailed E r msg sm w).1.1 |} r =
    Ok (action_of (GetID r) ActionUpdate "configuration drift detected").
Proof.
  unfold MarkFailed. cbn [time_Now]. destruct (SaveState _ _ _) as [w2 e].
  cbn [fst SetState state].
  assert (DetectDrift E
            {| stateFile := stateFile sm;
               state := <[GetID r := {| Status := StateFailed; LastApplied := clock E (ticks w);
                                        Checksum := "";
                                        Metadata := {[ "error" := AString msg ]} |}]> (state sm);
               sm_graph := sm_graph sm |} r = (true, None)) as Hd.
  { unfold DetectDrift, GetState. cbn [state]. rewrite lookup_insert_eq. cbn [Metadata].
    by rewrite lookup_singleton_ne. }
  split; [eexists; apply lookup_insert_eq|].
  split; [intros id Hne; by rewrite lookup_insert_ne|].
  split; [done|].
  unfold planResource, GetState. cbn [p_stateManager]. unfold SetState.
  cbn [state]. by rewrite lookup_insert_eq, Hd.
Qed.

(** X13: [MarkApplied] changes the entry of its resource only and the
    state file only.  When it returns no error the entry is Applied, holds
    the configuration as snapshot and its serialization as checksum, and
    the file holds the whole in-memory mapping.  When it returns an error,
    either the configuration did not serialize, and then neither the store
    nor the disk changed; or the write failed, and then the entry is
    replaced in memory all the same and the file holds whatever the failed
    write left. *)
Theorem MarkApplied_persists E r sm w sm' w' err :
  MarkApplied E r sm w = (sm', w', err) →
  stateFile sm' = stateFile sm ∧
  (∀ id, id ≠ GetID r → state sm' !! id = state sm !! id) ∧
  (∀ f, f ≠ stateFile sm → fs w' !! f = fs w !! f) ∧
  match err with
  | None =>
      fs w' !! stateFile sm = Some (state sm') ∧
      ∃ st, state sm' !! GetID r = Some st ∧ Status st = StateApplied ∧
            Metadata st = {[ "config" := AMap (GetConfig r) ]} ∧
            json_Marshal E (AMap (GetConfig r)) = Ok (Checksum st)
  | Some e =>
      (∃ m, json_Marshal E (AMap (GetConfig r)) = Err m ∧
            e = "failed to marshal config: " +:+ m ∧ sm' = sm ∧ fs w' = fs w) ∨
      (save_error E (stateFile sm) (state sm') = Some e ∧
       fs w' !! stateFile sm =
         failed_write E (stateFile sm) (state sm') (fs w !! stateFile sm) ∧
       ∃ st, state sm' !! GetID r = Some st ∧ Status st = StateApplied ∧
             Metadata st = {[ "config" := AMap (GetConfig r) ]} ∧
             json_Marshal E (AMap (GetConfig r)) = Ok (Checksum st))
  end.
Proof.
  unfold MarkApplied.
  destruct (json_Marshal E (AMap (GetConfig r))) as [bytes|e] eqn:Hm.
  - cbn [time_Now]. unfold SaveState, SetState. cbn [stateFile state].
    destruct (save_error E _ _) as [e|] eqn:Hsave; intros [= <- <- <-];
      cbn [stateFile state fs].
    + split; [done|]. split; [intros id Hne; by rewrite lookup_insert_ne|].
      split; [intros f Hne; by rewrite lookup_partial_alter_ne|].
      right. split; [done|]. split; [by rewrite lookup_partial_alter_eq|].
      eexists. split; [by rewrite lookup_insert_eq|]. done.
    + split; [done|]. split; [intros id Hne; by rewrite lookup_insert_ne|].
      split; [intros f Hne; by rewrite lookup_insert_ne|].
      split; [by rewrite lookup_insert_eq|].
      eexists. split; [by rewrite lookup_insert_eq|]. done.
  - intros [= <- <- <-]. split; [done|]. split; [done|]. split; [done|].
    left. by exists e.
Qed.

Lemma MarkApplied_persists_witness :
  let ok := MarkApplied env_ok (package_resource nginx) sm_stale world_saved in
  let full := MarkApplied env_disk_full (package_resource nginx) sm_stale world_saved in
  (state ok.1.1 !! "old" = Some pending ∧
   fs ok.1.2 !! "/etc/hosts.state" = Some ∅ ∧
   fs ok.1.2 !! ".settle/state.json" = Some (state ok.1.1) ∧
   ok.2 = None) ∧
  (state full.1.1 !! "old" = Some pending ∧
   fs full.1.2 !! "/etc/hosts.state" = Some ∅ ∧
   fs full.1.2 !! ".settle/state.json" = None ∧
   is_Some (state full.1.1 !! "package:apt:nginx") ∧
   full.2 = Some "failed to write state file: no space left on device").
Proof.
  intros ok full.
  pose proof (MarkApplied_persists env_ok (package_resource nginx) sm_stale world_saved
                ok.1.1 ok.1.2 ok.2 eq_refl) as (_ & Hst & Hfs & Hok).
  pose proof (MarkApplied_persists env_disk_full (package_resource nginx) sm_stale
                world_saved full.1.1 full.1.2 full.2 eq_refl) as (_ & Hst' & Hfs' & Hfull).
  split.
  - split; [by rewrite Hst|]. split; [by rewrite Hfs|].
    change ok.2 with (@None error) in Hok. destruct Hok as [Hdoc _]. done.
  - split; [by rewrite Hst'|]. split; [by rewrite Hfs'|].
    change full.2 with (Some "failed to write state file: no space left on device")
      in Hfull.
    destruct Hfull as [(m & Hm & _)|(_ & Hdoc & st & Hst0 & _)]; [discriminate Hm|].
    split; [exact Hdoc|]. split; [by exists st|done].
Defined.

(** ** Executor, continued *)

Lemma MarkFailed_effect E r msg sm w sm' w' err :
  MarkFailed E r msg sm w = (sm', w', err) →
  stateFile sm' = stateFile sm ∧
  state sm' = <[GetID r := {| Status := StateFailed; LastApplied := clock E (ticks w);
                              Checksum := "";
                              Metadata := {[ "error" := AString msg ]} |}]> (state sm) ∧
  (∀ f, f ≠ stateFile sm → fs w' !! f = fs w !! f).
Proof.
  unfold MarkFailed. cbn [time_Now]. unfold SaveState, SetState. cbn [stateFile state].
  destruct (save_error E _ _); intros [= <- <- <-]; cbn [stateFile state fs];
    (split; [done|]); (split; [done|]); intros f Hne.
  - by rewrite lookup_partial_alter_ne.
  - by rewrite lookup_insert_ne.
Qed.

Lemma MarkApplied_effect E r sm w sm' w' err :
  MarkApplied E r sm w = (sm', w', err) →
  stateFile sm' = stateFile sm ∧
  (∀ f, f ≠ stateFile sm → fs w' !! f = fs w !! f) ∧
  ((sm' = sm ∧ is_Some err) ∨
   ∃ bytes, json_Marshal E (AMap (GetConfig r)) = Ok bytes ∧
     state sm' = <[GetID r := {| Status := StateApplied; LastApplied := clock E (ticks w);
                                 Checksum := bytes;
                                 Metadata := {[ "config" := AMap (GetConfig r) ]} |}]>
                   (state sm)).
Proof.
  unfold MarkApplied.
  destruct (json_Marshal E (AMap (GetConfig r))) as [bytes|e] eqn:Hm.
  - cbn [time_Now]. unfold SaveState, SetState. cbn [stateFile state].
    destruct (save_error E _ _); intros [= <- <- <-]; cbn [stateFile state fs];
      (split; [done|]); (split; [|right; by exists bytes]); intros f Hne.
    + by rewrite lookup_partial_alter_ne.
    + by rewrite lookup_insert_ne.
  - intros [= <- <- <-]. split; [done|]. split; [done|]. left. split; [done|by eexists].
Qed.

(** What one call of [executeAction] does, by the way it ends. *)
Lemma executeAction_inv E e a sm w x err sm' w' :
  executeAction E e a sm w = (x, err, sm', w') →
  ExAction x = a ∧ stateFile sm' = stateFile sm ∧
  (∀ f, f ≠ stateFile sm → fs w' !! f = fs w !! f) ∧
  match GetResource (e_graph e) (ActResourceID a) with
  | None => sm' = sm ∧ is_Some err
  | Some r =>
      (∀ id, id ≠ GetID r → state sm' !! id = state sm !! id) ∧
      ((ActType a = ActionNoOp ∧ sm' = sm ∧ err = None) ∨
       (ActType a ≠ ActionNoOp ∧ is_Some err) ∨
       (ActType a ≠ ActionNoOp ∧ err = None ∧
        ∃ w1 w2, MarkApplied E r sm w1 = (sm', w2, None)))
  end.
Proof.
  unfold executeAction. cbn [time_Now].
  destruct (GetResource (e_graph e) (ActResourceID a)) as [r|]; [|by intros [= <- <- <- <-]; eauto].
  set (w0 := {| fs := fs w; ticks := S (ticks w) |}).
  assert (∀ (t : ActionType) (o : option error),
    match o with
    | Some msg =>
        let '(failed, w1) := time_Now E w0 in
        let '(sm'0, w'0, _) := MarkFailed E r msg sm w1 in
        ({| ExAction := a; ExStartedAt := clock E (ticks w); ExCompletedAt := None;
            ExFailedAt := Some failed; ExError := Some msg |},
         Some ("action failed: " +:+ msg), sm'0, w'0)
    | None =>
        match MarkApplied E r sm w0 with
        | (sm'0, w'0, Some msg) =>
            let '(failed, w'') := time_Now E w'0 in
            ({| ExAction := a; ExStartedAt := clock E (ticks w); ExCompletedAt := None;
                ExFailedAt := Some failed; ExError := Some msg |},
             Some ("failed to mark resource as applied: " +:+ msg), sm'0, w'')
        | (sm'0, w'0, None) =>
            let '(completed, w'') := time_Now E w'0 in
            ({| ExAction := a; ExStartedAt := clock E (ticks w);
                ExCompletedAt := Some completed; ExFailedAt := None; ExError := None |},
             None, sm'0, w'')
        end
    end = (x, err, sm', w') →
    t ≠ ActionNoOp →
    ExAction x = a ∧ stateFile sm' = stateFile sm ∧
    (∀ f, f ≠ stateFile sm → fs w' !! f = fs w !! f) ∧
    (∀ id, id ≠ GetID r → state sm' !! id = state sm !! id) ∧
    ((t = ActionNoOp ∧ sm' = sm ∧ err = None) ∨
     (t ≠ ActionNoOp ∧ is_Some err) ∨
     (t ≠ ActionNoOp ∧ err = None ∧
      ∃ w1 w2, MarkApplied E r sm w1 = (sm', w2, None)))) as Hfin.
  { intros t [msg|] Heq Hty.
    - cbn [time_Now] in Heq.
      destruct (MarkFailed E r msg sm _) as [[sm1 w1] e1] eqn:HF.
      revert Heq. intros [= <- <- <- <-].
      apply MarkFailed_effect in HF as (Hf & Hst & Hfs).
      split; [done|]. split; [done|]. split; [done|].
      split; [intros id Hne; by rewrite Hst, lookup_insert_ne|].
      right. left. split; [done|by eexists].
    - destruct (MarkApplied E r sm w0) as [[sm1 w1] [msg|]] eqn:HA;
        cbn [time_Now] in Heq; revert Heq; intros [= <- <- <- <-];
        pose proof HA as HA';
        apply MarkApplied_effect in HA as (Hf & Hfs & Hcase);
        (split; [done|]); (split; [done|]); (split; [done|]).
      + split; [|right; left; split; [done|by eexists]].
        destruct Hcase as [[-> _]|(b & _ & ->)]; [done|].
        intros id Hne. by rewrite lookup_insert_ne.
      + split; [|right; right; split; [done|]; split; [done|]; by exists w0, w1].
        destruct Hcase as [[-> _]|(b & _ & ->)]; [done|].
        intros id Hne. by rewrite lookup_insert_ne. }
  destruct (ActType a) eqn:Hty;
    try (intros Heq; eapply Hfin; [exact Heq | done]).
  intros [= <- <- <- <-]. split; [done|]. split; [done|]. split; [done|].
  split; [done|]. by left.
Qed.

Lemma execute_actions_shape E e actions done_ sm w done' fail sm' w' :
  execute_actions E e actions done_ sm w = (done', fail, sm', w') →
  ∃ outs, done' = done_ ++ outs ∧
    ExAction <$> outs = take (length outs) actions ∧
    match fail with
    | None => length outs = length actions
    | Some (id, _) =>
        ∃ a, actions !! length outs = Some a ∧ ActResourceID a = id
    end.
Proof.
  revert done_ sm w. induction actions as [|a actions IH]; intros done_ sm w;
    cbn [execute_actions].
  - intros [= <- <- <- <-]. exists []. by rewrite app_nil_r.
  - destruct (executeAction E e a sm w) as [[[x [err|]] sm1] w1] eqn:Hx.
    + intros [= <- <- <- <-]. exists []. rewrite app_nil_r.
      split; [done|]. split; [done|]. by exists a.
    + intros (outs & -> & Houts & Hfail)%IH.
      apply executeAction_inv in Hx as (Hxa & _).
      exists (x :: outs). rewrite <- app_assoc. split; [done|].
      cbn [length take]. rewrite fmap_cons, Hxa, Houts. split; [done|].
      destruct fail as [[id msg]|]; [done|]. simpl. by rewrite Hfail.
Qed.

Lemma execute_actions_frame E e actions done_ sm w done' fail sm' w' :
  wf_graph (e_graph e) →
  execute_actions E e actions done_ sm w = (done', fail, sm', w') →
  stateFile sm' = stateFile sm ∧
  (∀ f, f ≠ stateFile sm → fs w' !! f = fs w !! f) ∧
  (∀ id, id ∉ ActResourceID <$> actions → state sm' !! id = state sm !! id).
Proof.
  intros [_ Hid]. revert done_ sm w.
  induction actions as [|a actions IH]; intros done_ sm w; cbn [execute_actions].
  - by intros [= _ _ <- <-].
  - destruct (executeAction E e a sm w) as [[[x err] sm1] w1] eqn:Hx.
    apply executeAction_inv in Hx as (_ & Hf & Hfs & Hres).
    assert (∀ id, id ≠ ActResourceID a → state sm1 !! id = state sm !! id) as Hst.
    { unfold GetResource in Hres.
      destruct (nodes (e_graph e) !! ActResourceID a) as [r|] eqn:Hr.
      - destruct Hres as [Hst _]. rewrite <- (Hid _ r Hr). done.
      - by destruct Hres as [-> _]. }
    destruct err as [msg|].
    + intros [= _ _ <- <-]. split; [done|]. split; [done|].
      intros id Hnin. apply Hst. rewrite fmap_cons, not_elem_of_cons in Hnin. tauto.
    + intros (Hf' & Hfs' & Hst')%IH. split; [congruence|]. split.
      * intros f Hne. rewrite Hfs' by congruence. by apply Hfs.
      * intros id Hnin. rewrite fmap_cons, not_elem_of_cons in Hnin.
        rewrite Hst' by tauto. apply Hst. tauto.
Qed.

(** X14: what [Execute] returns.  Without a result, validation failed and
    neither the state store nor any file was touched.  With a result, the
    outcomes recorded are those of a prefix of the plan, in plan order and
    all without error; the run is a success exactly when no error is
    returned, and then every action has its outcome, while a failed run
    records fewer outcomes than the plan has actions. *)
Theorem Execute_result_shape E v e plan sm w ores err sm' w' :
  Execute E v e plan sm w = (ores, err, sm', w') →
  match ores with
  | None =>
      ValidatePlan v plan ≠ None ∧ is_Some err ∧ sm' = sm ∧ fs w' = fs w
  | Some res =>
      ValidatePlan v plan = None ∧ ResPlan res = plan ∧
      ExAction <$> ResActions res = take (length (ResActions res)) (Actions plan) ∧
      Forall (λ x, ExError x = None) (ResActions res) ∧
      (Success res = true ↔ err = None) ∧
      (Success res = true → length (ResActions res) = length (Actions plan)) ∧
      (Success res = false →
       (length (ResActions res) < length (Actions plan))%nat)
  end.
Proof.
  unfold Execute. cbn [time_Now].
  destruct (ValidatePlan v plan) as [verr|] eqn:Hv.
  { intros [= <- <- <- <-]. split; [done|]. split; [by eexists|]. done. }
  destruct (execute_actions E e (Actions plan) [] sm _)
    as [[[done' fail] sm1] w1] eqn:Hrun.
  pose proof (execute_actions_no_failure _ _ _ _ _ _ _ _ _ _ (List.Forall_nil _) Hrun)
    as Hall.
  apply execute_actions_shape in Hrun as (outs & -> & Houts & Hfail).
  rewrite app_nil_l in *.
  destruct fail as [[id msg]|]; intros [= <- <- <- <-]; cbn [ResPlan ResActions Success];
    (split; [done|]); (split; [done|]); (split; [done|]); (split; [done|]).
  - split; [done|]. split; [done|]. intros _.
    destruct Hfail as (a & Ha & _). by eapply lookup_lt_Some.
  - done.
Qed.

Lemma Execute_result_shape_witness :
  match run_three.1.1.1 with
  | None =>
      ValidatePlan vs_id plan_three ≠ None ∧ is_Some run_three.1.1.2 ∧
      run_three.1.2 = NewStateManager ".settle/state.json" g_three ∧
      fs run_three.2 = fs world0
  | Some res =>
      ValidatePlan vs_id plan_three = None ∧ ResPlan res = plan_three ∧
      ExAction <$> ResActions res =
        take (length (ResActions res)) (Actions plan_three) ∧
      Forall (λ x, ExError x = None) (ResActions res) ∧
      (Success res = true ↔ run_three.1.1.2 = None) ∧
      (Success res = true → length (ResActions res) = length (Actions plan_three)) ∧
      (Success res = false →
       (length (ResActions res) < length (Actions plan_three))%nat)
  end.
Proof.
  apply (Execute_result_shape env_ok vs_id executor_three plan_three
           (NewStateManager ".settle/state.json" g_three) world0).
  vm_compute. reflexivity.
Defined.

(** X15: on a graph built through the API, [Execute] changes the state
    entries of the resources its plan names and no other entry, and writes
    no file but the state file. *)
Theorem Execute_frame E v e plan sm w ores err sm' w' :
  wf_graph (e_graph e) →
  Execute E v e plan sm w = (ores, err, sm', w') →
  stateFile sm' = stateFile sm ∧
  (∀ f, f ≠ stateFile sm → fs w' !! f = fs w !! f) ∧
  (∀ id, id ∉ ActResourceID <$> Actions plan → state sm' !! id = state sm !! id).
Proof.
  intros Hwf. unfold Execute. cbn [time_Now].
  destruct (ValidatePlan v plan); [by intros [= _ _ <- <-]|].
  destruct (execute_actions E e (Actions plan) [] sm _)
    as [[[done' fail] sm1] w1] eqn:Hrun.
  apply (execute_actions_frame _ _ _ _ _ _ _ _ _ _ Hwf) in Hrun as (Hf & Hfs & Hst).
  destruct fail as [[id msg]|]; intros [= _ _ <- <-]; cbn [fs]; done.
Qed.

Lemma g_three_wf : wf_graph g_three.
Proof. do 3 apply AddResource_wf. apply NewGraph_wf. Qed.

Lemma Execute_frame_witness :
  stateFile run_three.1.2 = ".settle/state.json" ∧
  (∀ f, f ≠ ".settle/state.json" → fs run_three.2 !! f = fs world0 !! f) ∧
  (∀ id, id ∉ ActResourceID <$> Actions plan_three →
         state run_three.1.2 !! id =
         state (NewStateManager ".settle/state.json" g_three) !! id).
Proof.
  apply (Execute_frame env_ok vs_id executor_three plan_three
           (NewStateManager ".settle/state.json" g_three) world0
           run_three.1.1.1 run_three.1.1.2 run_three.1.2 run_three.2 g_three_wf).
  vm_compute. reflexivity.
Defined.









Lemma stub_Apply_fails E ctx r :
  is_stub r → is_Some (Resource_Apply E ctx r) ∧ is_Some (Resource_Destroy E ctx r).
Proof.
  unfold is_stub, Resource_Apply, Resource_Destroy.
  destruct (RKind r) as [|h|pkg| |]; try done; try (intros _; split; by eexists).
  intros Hm. rewrite !decide_False by done. split; by eexists.
Qed.

Lemma executeAction_stub E e a r sm w :
  GetResource (e_graph e) (ActResourceID a) = Some r →
  is_stub r → ActType a ≠ ActionNoOp →
  is_Some (executeAction E e a sm w).1.1.2.
Proof.
  intros Hr Hstub Hty. unfold executeAction. cbn [time_Now]. rewrite Hr.
  destruct (stub_Apply_fails E (createResourceContext e r) r Hstub)
    as [[m1 ->] [m2 ->]].
  destruct (ActType a); try done; cbn [time_Now];
    destruct (MarkFailed E r _ sm _) as [[? ?] ?]; by eexists.
Qed.

Lemma execute_actions_fail E e actions done_ sm w a r :
  a ∈ actions → GetResource (e_graph e) (ActResourceID a) = Some r →
  is_stub r → ActType a ≠ ActionNoOp →
  is_Some (execute_actions E e actions done_ sm w).1.1.2.
Proof.
  intros Hin Hr Hstub Hty. revert done_ sm w.
  induction actions as [|b actions IH]; intros done_ sm w; [by apply elem_of_nil in Hin|].
  cbn [execute_actions].
  destruct (executeAction E e b sm w) as [[[x [err|]] sm1] w1] eqn:Hx; [by eexists|].
  apply elem_of_cons in Hin as [->|Hin]; [|by apply IH].
  pose proof (executeAction_stub E e b r sm w Hr Hstub Hty) as Hs.
  rewrite Hx in Hs. by destruct Hs.
Qed.

(** X17: a plan that holds a Create, Update or Delete for a service, a
    file, a bare base resource or a package of a manager other than apt can
    never be executed to the end: whatever the environment, [Execute]
    returns an error and, if it returns a result, [Success] is false. *)
Theorem Execute_stub_never_succeeds E v e plan sm w a r :
  a ∈ Actions plan → GetResource (e_graph e) (ActResourceID a) = Some r →
  is_stub r → ActType a ≠ ActionNoOp →
  is_Some (Execute E v e plan sm w).1.1.2 ∧
  ∀ res, (Execute E v e plan sm w).1.1.1 = Some res → Success res = false.
Proof.
  intros Hin Hr Hstub Hty. unfold Execute. cbn [time_Now].
  destruct (ValidatePlan v plan); [split; [by eexists|done]|].
  pose proof (execute_actions_fail E e (Actions plan) [] sm
                {| fs := fs w; ticks := S (ticks w) |} a r Hin Hr Hstub Hty) as Hfail.
  destruct (execute_actions E e (Actions plan) [] sm _) as [[[done' fail] sm1] w1].
  destruct Hfail as [[id msg] Hfail]. cbn [fst snd] in Hfail. subst fail.
  cbn [fst snd]. split; [by eexists|]. by intros res [= <-].
Qed.

Lemma Execute_stub_never_succeeds_witness :
  is_Some run_three.1.1.2 ∧
  ∀ res, run_three.1.1.1 = Some res → Success res = false.
Proof.
  apply (Execute_stub_never_succeeds env_ok vs_id executor_three plan_three
           (NewStateManager ".settle/state.json" g_three) world0
           (action_of "svc" ActionCreate "resource not in state")
           (service "svc" LayerApplication [])).
  - right. left.
  - reflexivity.
  - exact I.
  - discriminate.
Defined.

(** ** The apt driver, continued *)

Lemma run_all_counts RunCommand verb (pkgs : list Package) : ∀ n t,
  let t' := Apt.run_all RunCommand verb n pkgs t in
  Apt.successCount t' + Apt.failureCount t' =
    Apt.successCount t + Apt.failureCount t + Z.of_nat (length pkgs) ∧
  Apt.failureCount t ≤ Apt.failureCount t' ∧
  Apt.successCount t ≤ Apt.successCount t' ∧
  length (Apt.results t') = (length (Apt.results t) + length pkgs)%nat ∧
  (Apt.failureCount t' = Apt.failureCount t + Z.of_nat (length pkgs) ↔
   ∀ i pkg, pkgs !! i = Some pkg →
            is_Some (RunCommand (n + i)%nat (verb +:+ Apt.pkgName pkg)).2).
Proof.
  induction pkgs as [|pkg pkgs IH]; intros n t; cbn [Apt.run_all].
  - cbn zeta. simpl. split; [lia|]. split; [lia|]. split; [lia|]. split; [lia|].
    split; [by intros _ i p|lia].
  - specialize (IH (S n) (Apt.run_one RunCommand verb n pkg t)). cbn zeta in *.
    destruct IH as (Hsum & Hf & Hs & Hlen & Hall).
    set (t' := Apt.run_all _ _ _ _ _) in *.
    unfold Apt.run_one in Hsum, Hf, Hs, Hlen, Hall.
    destruct (RunCommand n (verb +:+ Apt.pkgName pkg)) as [out [err|]] eqn:Hcmd;
      cbn [Apt.successCount Apt.failureCount Apt.results] in *;
      rewrite ?length_app in Hlen; cbn [length] in *.
    + split; [lia|]. split; [lia|]. split; [lia|]. split; [lia|].
      split.
      * intros Hc i p Hi. destruct i as [|i].
        -- simpl in Hi. injection Hi as <-. rewrite Nat.add_0_r, Hcmd. by eexists.
        -- rewrite Nat.add_succ_r. apply (proj1 Hall); [lia|done].
      * intros H. assert (Apt.failureCount t' =
                          Apt.failureCount t + 1 + Z.of_nat (length pkgs)); [|lia].
        apply Hall. intros i p Hi.
        replace (S n + i)%nat with (n + S i)%nat by lia. by apply (H (S i)).
    + split; [lia|]. split; [lia|]. split; [lia|]. split; [lia|].
      split; [lia|]. intros H. specialize (H 0%nat pkg eq_refl).
      rewrite Nat.add_0_r, Hcmd in H. by destruct H.
Qed.

Lemma some_success_dec (RunCommand : Apt.Transport) (cmd : Package → string)
    (pkgs : list Package) n :
  (∀ i pkg, pkgs !! i = Some pkg → is_Some (RunCommand (n + i)%nat (cmd pkg)).2) ∨
  (∃ i pkg, pkgs !! i = Some pkg ∧ (RunCommand (n + i)%nat (cmd pkg)).2 = None).
Proof.
  revert n. induction pkgs as [|pkg pkgs IH]; intros n; [by left|].
  destruct (RunCommand n (cmd pkg)).2 as [err|] eqn:Hcmd.
  - destruct (IH (S n)) as [Hall|(i & p & Hi & Hok)].
    + left. intros [|i] p Hi.
      * injection Hi as <-. rewrite Nat.add_0_r, Hcmd. by eexists.
      * rewrite Nat.add_succ_r. by apply Hall.
    + right. exists (S i), p. split; [done|]. by rewrite Nat.add_succ_r.
  - right. exists 0%nat, pkg. split; [done|]. by rewrite Nat.add_0_r.
Qed.

(** X18: a batch install or removal returns an error exactly when no
    command of the batch succeeded; one success is enough for a nil
    error, whatever the number of failures. *)
Theorem Apt_batch_error_iff RunCommand hostName (pkgs : list Package) :
  (Apt.Install RunCommand hostName pkgs = None ↔
   ∃ i pkg, pkgs !! i = Some pkg ∧
     (RunCommand i ("sudo apt-get install -y " +:+ Apt.pkgName pkg)).2 = None) ∧
  (Apt.Remove RunCommand hostName pkgs = None ↔
   ∃ i pkg, pkgs !! i = Some pkg ∧
     (RunCommand i ("sudo apt-get remove -y " +:+ Apt.pkgName pkg)).2 = None).
Proof.
  assert (∀ verb,
    Apt.failureCount (Apt.run_all RunCommand verb 0 pkgs
       {| Apt.results := []; Apt.successCount := 0; Apt.failureCount := 0 |})
      ≠ Z.of_nat (length pkgs) ↔
    ∃ i pkg, pkgs !! i = Some pkg ∧
             (RunCommand i (verb +:+ Apt.pkgName pkg)).2 = None) as Hkey.
  { intros verb.
    destruct (run_all_counts RunCommand verb pkgs 0
                {| Apt.results := []; Apt.successCount := 0; Apt.failureCount := 0 |})
      as (_ & _ & _ & _ & Hall). cbn [Apt.failureCount] in Hall.
    rewrite Z.add_0_l in Hall. rewrite Hall. split.
    - intros Hn.
      destruct (some_success_dec RunCommand (λ p, verb +:+ Apt.pkgName p) pkgs 0)
        as [Hall'|Hex]; [done|]. done.
    - intros (i & pkg & Hi & Hok) Hall'. specialize (Hall' i pkg Hi).
      simpl in Hall'. rewrite Hok in Hall'. by destruct Hall'. }
  unfold Apt.Install, Apt.Remove. split.
  - rewrite <- Hkey. case_decide; naive_solver.
  - rewrite <- Hkey. case_decide; naive_solver.
Qed.

Lemma check_all_counts RunCommand (pkgs : list Package) : ∀ n t,
  let t' := AptPackage.check_all RunCommand n pkgs t in
  Apt.successCount t' + Apt.failureCount t' =
    Apt.successCount t + Apt.failureCount t + Z.of_nat (length pkgs) ∧
  Apt.failureCount t ≤ Apt.failureCount t' ∧
  Apt.successCount t ≤ Apt.successCount t' ∧
  (Apt.failureCount t' = Apt.failureCount t + Z.of_nat (length pkgs) ↔
   ∀ i pkg, pkgs !! i = Some pkg →
            is_Some (RunCommand (n + i)%nat ("dpkg -l | grep -w " +:+ PkgName pkg)).2) ∧
  (Apt.successCount t' = Apt.successCount t + Z.of_nat (length pkgs) ↔
   ∀ i pkg, pkgs !! i = Some pkg →
            (RunCommand (n + i)%nat ("dpkg -l | grep -w " +:+ PkgName pkg)).2 = None).
Proof.
  induction pkgs as [|pkg pkgs IH]; intros n t; cbn [AptPackage.check_all].
  - cbn zeta. simpl. split; [lia|]. split; [lia|]. split; [lia|].
    split; (split; [by intros _ i p|lia]).
  - specialize (IH (S n) (AptPackage.check_one RunCommand n pkg t)). cbn zeta in *.
    destruct IH as (Hsum & Hf & Hs & Hfail & Hsucc).
    set (t' := AptPackage.check_all _ _ _ _) in *.
    unfold AptPackage.check_one in Hsum, Hf, Hs, Hfail, Hsucc.
    destruct (RunCommand n ("dpkg -l | grep -w " +:+ PkgName pkg)) as [out [err|]] eqn:Hcmd;
      cbn [Apt.successCount Apt.failureCount Apt.results] in *; cbn [length].
    + split; [lia|]. split; [lia|]. split; [lia|]. split; split.
      * intros Hc [|i] p Hi.
        -- injection Hi as <-. rewrite Nat.add_0_r, Hcmd. by eexists.
        -- rewrite Nat.add_succ_r. apply (proj1 Hfail); [lia|done].
      * intros H. assert (Apt.failureCount t' =
                          Apt.failureCount t + 1 + Z.of_nat (length pkgs)); [|lia].
        apply Hfail. intros i p Hi.
        replace (S n + i)%nat with (n + S i)%nat by lia. by apply (H (S i)).
      * lia.
      * intros H. specialize (H 0%nat pkg eq_refl). by rewrite Nat.add_0_r, Hcmd in H.
    + split; [lia|]. split; [lia|]. split; [lia|]. split; split.
      * lia.
      * intros H. specialize (H 0%nat pkg eq_refl).
        rewrite Nat.add_0_r, Hcmd in H. by destruct H.
      * intros Hc [|i] p Hi.
        -- injection Hi as <-. by rewrite Nat.add_0_r, Hcmd.
        -- rewrite Nat.add_succ_r. apply (proj1 Hsucc); [lia|done].
      * intros H. assert (Apt.successCount t' =
                          Apt.successCount t + 1 + Z.of_nat (length pkgs)); [|lia].
        apply Hsucc. intros i p Hi.
        replace (S n + i)%nat with (n + S i)%nat by lia. by apply (H (S i)).
Qed.

(** X19: [DoesExist] answers true only when the list is not empty and
    every check command succeeded; it returns the all-checks-failed error
    exactly when no check succeeded, which includes the empty list; a list
    with both outcomes gives false and no error. *)
Theorem DoesExist_outcome RunCommand hostName (pkgs : list Package) :
  let ok i pkg := (RunCommand i ("dpkg -l | grep -w " +:+ PkgName pkg)).2 = None in
  match AptPackage.DoesExist RunCommand hostName pkgs with
  | (true, None) => pkgs ≠ [] ∧ ∀ i pkg, pkgs !! i = Some pkg → ok i pkg
  | (false, None) =>
      (∃ i pkg, pkgs !! i = Some pkg ∧ ok i pkg) ∧
      (∃ i pkg, pkgs !! i = Some pkg ∧ ¬ ok i pkg)
  | (false, Some err) =>
      err = "all package checks failed on host " +:+ hostName ∧
      ∀ i pkg, pkgs !! i = Some pkg → ¬ ok i pkg
  | (true, Some _) => False
  end.
Proof.
  intros ok. unfold AptPackage.DoesExist.
  destruct (check_all_counts RunCommand pkgs 0
              {| Apt.results := []; Apt.successCount := 0; Apt.failureCount := 0 |})
    as (Hsum & Hf & Hs & Hfail & Hsucc).
  cbn [Apt.successCount Apt.failureCount] in *. rewrite Z.add_0_l in *.
  set (t' := AptPackage.check_all _ _ _ _) in *.
  case_decide as Hall.
  - split; [done|]. intros i pkg Hi Hok.
    pose proof (proj1 Hfail Hall i pkg Hi) as Hbad.
    simpl in Hbad. unfold ok in Hok. rewrite Hok in Hbad. by destruct Hbad.
  - case_bool_decide as Hallok.
    + split; [|by apply Hsucc]. intros ->. simpl in *. lia.
    + split.
      * destruct (some_success_dec RunCommand (λ p, "dpkg -l | grep -w " +:+ PkgName p)
                    pkgs 0) as [Hno|Hex]; [|done]. destruct Hall. by apply Hfail.
      * assert (∀ n (l : list Package),
                  (∀ i pkg, l !! i = Some pkg → ok (n + i)%nat pkg) ∨
                  (∃ i pkg, l !! i = Some pkg ∧ ¬ ok (n + i)%nat pkg)) as Hdec.
        { intros n l. revert n. induction l as [|p l IH]; intros n; [by left|].
          destruct (RunCommand n ("dpkg -l | grep -w " +:+ PkgName p)).2 as [e|] eqn:Hc.
          - right. exists 0%nat, p. split; [done|]. unfold ok.
            by rewrite Nat.add_0_r, Hc.
          - destruct (IH (S n)) as [Hall'|(i & q & Hi & Hn)].
            + left. intros [|i] q Hi.
              * injection Hi as <-. unfold ok. by rewrite Nat.add_0_r, Hc.
              * rewrite Nat.add_succ_r. by apply Hall'.
            + right. exists (S i), q. split; [done|]. by rewrite Nat.add_succ_r. }
        destruct (Hdec 0%nat pkgs) as [Hyes|Hex]; [|done]. destruct Hallok.
        by apply Hsucc.
Qed.

(** X20: for an apt package, [PackageResource.Apply] returns no error
    exactly when the connection is made and the existence check command
    succeeds.  A failed check is returned as an error before any install,
    so the outcome never depends on the install command.  [Destroy] returns
    no error exactly when the connection is made and the remove command
    succeeds. *)
Theorem PackageResource_Apply_by_check connect RunCommand hostName p :
  Manager p = "apt" →
  (AptPackage.Apply connect RunCommand hostName p = None ↔
   connect = None ∧ (RunCommand 0%nat ("dpkg -l | grep -w " +:+ PkgName p)).2 = None) ∧
  (∀ RunCommand' : Apt.Transport,
     RunCommand' 0%nat = RunCommand 0%nat →
     AptPackage.Apply connect RunCommand' hostName p =
     AptPackage.Apply connect RunCommand hostName p) ∧
  (AptPackage.Destroy connect RunCommand hostName p = None ↔
   connect = None ∧
   (RunCommand 0%nat ("sudo apt-get remove -y " +:+ Apt.pkgName p)).2 = None).
Proof.
  intros Hm.
  assert (∀ R : Apt.Transport,
    AptPackage.Apply connect R hostName p =
    match connect with
    | Some err => Some ("failed to create apt manager: " +:+
                        ("failed to create SSH client: " +:+ err))
    | None =>
        match (R 0%nat ("dpkg -l | grep -w " +:+ PkgName p)).2 with
        | Some _ => Some ("failed to check if package exists: " +:+
                          ("all package checks failed on host " +:+ hostName))
        | None => None
        end
    end) as Happly.
  { intros R. unfold AptPackage.Apply. rewrite decide_True by done.
    destruct connect as [err|]; [done|]. cbn [AptPackage.NewAptManager].
    unfold AptPackage.DoesExist. cbn [AptPackage.check_all].
    unfold AptPackage.check_one.
    destruct (R 0%nat ("dpkg -l | grep -w " +:+ PkgName p)) as [out [err|]];
      reflexivity. }
  split; [|split].
  - rewrite Happly. destruct connect; [naive_solver|].
    destruct (RunCommand 0%nat _).2; naive_solver.
  - intros R' HR. by rewrite !Happly, HR.
  - unfold AptPackage.Destroy, Apt.Remove. rewrite decide_True by done.
    destruct connect as [err|]; [naive_solver|]. cbn [AptPackage.NewAptManager].
    cbn [Apt.run_all]. unfold Apt.run_one.
    destruct (RunCommand 0%nat ("sudo apt-get remove -y " +:+ Apt.pkgName p))
      as [out [err|]]; cbn; naive_solver.
Qed.

Lemma PackageResource_Apply_by_check_witness :
  (AptPackage.Apply None (λ _ _, ("", Some "exit status 1")) "web1" nginx = None ↔
   (None : option error) = None ∧ Some "exit status 1" = None) ∧
  (∀ RunCommand' : Apt.Transport,
     RunCommand' 0%nat = (λ _, ("", Some "exit status 1")) →
     AptPackage.Apply None RunCommand' "web1" nginx =
     AptPackage.Apply None (λ _ _, ("", Some "exit status 1")) "web1" nginx) ∧
  (AptPackage.Destroy None (λ _ _, ("", Some "exit status 1")) "web1" nginx = None ↔
   (None : option error) = None ∧ Some "exit status 1" = None).
Proof.
  exact (PackageResource_Apply_by_check None (λ _ _, ("", Some "exit status 1"))
           "web1" nginx eq_refl).
Defined.

(** ** From parsed packages to a validated graph *)

Lemma package_resource_valid pkg : Validate (package_resource pkg) = None.
Proof. apply Validate_None. split; discriminate. Qed.

Lemma fold_packages (pkgs : list Package) : ∀ g0,
  wf_graph g0 → (∀ a b, ¬ req_edge g0 a b) →
  let g := foldl (λ g r, (AddResource r g).1) g0 (package_resource <$> pkgs) in
  wf_graph g ∧ (∀ a b, ¬ req_edge g a b) ∧
  ∀ id, is_node g id ↔
        is_node g0 id ∨ ∃ pkg, pkg ∈ pkgs ∧ id = GetID (package_resource pkg).
Proof.
  induction pkgs as [|pkg pkgs IH]; intros g0 Hwf Hno; cbn zeta.
  - split; [done|]. split; [done|]. intros id. split; [by left|].
    intros [?|(pkg & Hin & _)]; [done|]. by apply elem_of_nil in Hin.
  - rewrite fmap_cons. cbn [foldl].
    assert (∀ a b, ¬ req_edge (AddResource (package_resource pkg) g0).1 a b) as Hno1.
    { intros a b. unfold AddResource. rewrite package_resource_valid. cbn [fst].
      unfold req_edge, out. rewrite edges_of_insert. case_decide; [|apply Hno].
      apply not_elem_of_nil. }
    destruct (IH (AddResource (package_resource pkg) g0).1
                (AddResource_wf _ _ Hwf) Hno1) as (Hwf' & Hno' & Hnodes).
    cbn zeta in Hwf', Hno', Hnodes.
    + split; [done|]. split; [done|]. intros id. rewrite Hnodes.
      unfold AddResource. rewrite package_resource_valid. cbn [fst].
      unfold is_node at 1. cbn [nodes]. rewrite lookup_insert.
      setoid_rewrite elem_of_cons. case_decide as Hk.
      * split; [|by eauto]. intros _. right. exists pkg. split; [by left|done].
      * split.
        -- intros [?|(q & Hq & ->)]; [by left|]. right. exists q. eauto.
        -- intros [?|(q & [->|Hq] & ->)]; [by left|done|]. right. by exists q.
Qed.

(** X21: the graph the commands build from parsed packages is always
    accepted: every package resource passes [Validate] and is added, the
    nodes are exactly the ids "package:<manager>:<name>" of the packages
    (a repeated package gives one node), no edge is declared, and
    [ValidateDependencies] returns no error under every iteration order. *)
Theorem parsed_packages_validate s σ (packages : list Package) :
  ValidateResources (CreatePackageResources packages) = None ∧
  wf_graph (build (CreatePackageResources packages)) ∧
  (∀ id, is_node (build (CreatePackageResources packages)) id ↔
         ∃ pkg, pkg ∈ packages ∧
                id = "package:" +:+ Manager pkg +:+ ":" +:+ PkgName pkg) ∧
  (∀ a b, ¬ req_edge (build (CreatePackageResources packages)) a b) ∧
  ValidateDependencies s σ (build (CreatePackageResources packages)) = None.
Proof.
  split.
  { unfold CreatePackageResources. induction packages as [|pkg l IH]; [done|].
    rewrite fmap_cons. cbn [ValidateResources]. rewrite package_resource_valid.
    apply IH. }
  destruct (fold_packages packages NewGraph NewGraph_wf) as (Hwf & Hno & Hnodes).
  { intros a b. unfold req_edge, out, edges_of. simpl. rewrite lookup_empty.
    apply not_elem_of_nil. }
  cbn zeta in *. fold (build (package_resource <$> packages)) in *.
  fold (CreatePackageResources packages) in *.
  split; [done|]. split.
  { intros id. rewrite Hnodes. split; [|by right].
    intros [[r Hr]|?]; [|done]. simpl in Hr. by rewrite lookup_empty in Hr. }
  split; [done|].
  unfold ValidateDependencies.
  destruct (TopologicalSort_acyclic_ok s _ Hwf) as (order & -> & _).
  { intros a b Hab. by apply Hno in Hab. }
  { intros x [z Hz]%tc_first. by apply Hno in Hz. }
  destruct (validate_nodes _ _) as [err|] eqn:Hval; [|done]. exfalso.
  destruct (validate_nodes_Some _ _ err (λ id r, proj1 (elem_of_range_items σ _ id r)) Hval)
    as (a & _ & ra & b & _ & Hab & _).
  by apply Hno in Hab.
Qed.

(** ** Cleanup, continued *)

Lemma Cleanup_toRemove σg σs sm id :
  wf_graph (sm_graph sm) →
  id ∈ filter (λ id, default false
                 (foldl (λ m resource, <[GetID resource := true]> m)
                    (∅ : gmap ResourceID bool)
                    (GetAllResources σg (sm_graph sm)) !! id) = false)
              (range_keys σs (state sm)) ↔
  ¬ is_node (sm_graph sm) id ∧ is_Some (state sm !! id).
Proof.
  intros Hwf. rewrite list_elem_of_filter, elem_of_range_keys.
  rewrite <- (declared_iff_node σg _ id Hwf).
  pose proof (graphResources_lookup (GetAllResources σg (sm_graph sm)) ∅ id) as Hgr.
  rewrite lookup_empty in Hgr. simpl in Hgr.
  destruct (default false _); naive_solver.
Qed.

(** X22: [Cleanup] is idempotent.  After one [Cleanup] every remaining
    entry belongs to a node, and a second [Cleanup], under any iteration
    order, removes nothing, returns no error and does not write the file. *)
Theorem Cleanup_idempotent E σ1 σ2 σ3 σ4 sm w w2 :
  wf_graph (sm_graph sm) →
  (∀ id, is_Some (state (Cleanup E σ1 σ2 sm w).1.1 !! id) → is_node (sm_graph sm) id) ∧
  Cleanup E σ3 σ4 (Cleanup E σ1 σ2 sm w).1.1 w2 = ((Cleanup E σ1 σ2 sm w).1.1, w2, None).
Proof.
  intros Hwf.
  assert (∃ sm1, (Cleanup E σ1 σ2 sm w).1.1 = sm1 ∧ sm_graph sm1 = sm_graph sm ∧
            ∀ id, is_Some (state sm1 !! id) → is_node (sm_graph sm) id)
    as (sm1 & -> & Hg & Hall).
  { unfold Cleanup. set (toRemove := filter _ (range_keys σ2 (state sm))).
    destruct (RemoveState_fold toRemove sm) as (_ & Hg & Hst). cbn zeta in *.
    exists (foldl (λ sm id, RemoveState id sm) sm toRemove). split.
    - case_decide; [by destruct (SaveState _ _ _)|done].
    - split; [done|]. intros id. rewrite Hst. case_decide as Hin; [by intros [? ?]|].
      intros Hs. destruct (decide (is_node (sm_graph sm) id)) as [|Hn]; [done|].
      destruct Hin. by apply Cleanup_toRemove. }
  split; [done|]. unfold Cleanup.
  set (toRemove := filter _ (range_keys σ4 (state sm1))).
  assert (toRemove = []) as ->.
  { destruct toRemove as [|id l] eqn:Htr; [done|]. exfalso.
    assert (id ∈ toRemove) as Hin by (rewrite Htr; by left).
    apply Cleanup_toRemove in Hin as [Hn Hs]; [|by rewrite Hg].
    apply Hn. rewrite Hg. by apply Hall. }
  cbn [foldl length]. by rewrite decide_False by lia.
Qed.

Lemma Cleanup_idempotent_witness :
  (∀ id, is_Some (state (Cleanup env_ok shuffle_id shuffle_id sm_stale world0).1.1 !! id) →
         is_node g_pair id) ∧
  Cleanup env_ok shuffle_rev shuffle_rev
    (Cleanup env_ok shuffle_id shuffle_id sm_stale world0).1.1 world0 =
  ((Cleanup env_ok shuffle_id shuffle_id sm_stale world0).1.1, world0, None).
Proof.
  exact (Cleanup_idempotent env_ok shuffle_id shuffle_id shuffle_rev shuffle_rev
           sm_stale world0 world0 g_pair_wf).
Defined.

(** ** The host bound to a resource *)

Lemma hosts_map_lookup (hosts : list Host) : ∀ (m : gmap string Host) name h,
  foldl (λ m h, <[HostName h := h]> m) m hosts !! name = Some h →
  h ∈ hosts ∨ m !! name = Some h.
Proof.
  induction hosts as [|x hosts IH]; intros m name h; cbn [foldl]; [by right|].
  intros [Hin|Hm]%IH; [left; by right|].
  rewrite lookup_insert in Hm. case_decide; [|by right].
  injection Hm as <-. left. by left.
Qed.

Lemma hosts_map_dom (hosts : list Host) : ∀ (m : gmap string Host) name,
  (is_Some (m !! name) ∨ ∃ h, h ∈ hosts ∧ HostName h = name) →
  is_Some (foldl (λ m h, <[HostName h := h]> m) m hosts !! name).
Proof.
  induction hosts as [|x hosts IH]; intros m name; cbn [foldl].
  - intros [?|(h & Hin & _)]; [done|]. by apply elem_of_nil in Hin.
  - intros Hcase. apply IH. rewrite lookup_insert.
    destruct (decide (HostName x = name)) as [Hx|Hx]; [left; by eexists|].
    destruct Hcase as [?|(h & [->|Hin]%elem_of_cons & Hn)]; [by left|done|].
    right. by exists h.
Qed.

(** X23: after [SetHosts], the context of a host resource holds that
    host; the context of a package resource holds one of the configured
    hosts, whichever the map iteration yields first, and holds no host only
    when none was configured; every other resource gets no host. *)
Theorem createResourceContext_binds hosts e r :
  match RKind r with
  | KHost h => createResourceContext (SetHosts hosts e) r = Some h
  | KPackage _ =>
      match createResourceContext (SetHosts hosts e) r with
      | Some h => h ∈ hosts
      | None => hosts = []
      end
  | _ => createResourceContext (SetHosts hosts e) r = None
  end.
Proof.
  unfold createResourceContext. destruct (RKind r) as [|h|pkg| |]; try done.
  unfold SetHosts. cbn [e_hosts e_hosts_order].
  set (m := foldl _ ∅ hosts).
  destruct (range_keys (e_hosts_order e) m) as [|name l] eqn:Hkeys.
  - destruct hosts as [|h hosts]; [done|]. exfalso.
    assert (HostName h ∈ range_keys (e_hosts_order e) m) as Hin.
    { apply elem_of_range_keys. apply hosts_map_dom. right. exists h.
      split; [by left|done]. }
    rewrite Hkeys in Hin. by apply elem_of_nil in Hin.
  - assert (name ∈ range_keys (e_hosts_order e) m) as Hin by (rewrite Hkeys; by left).
    apply elem_of_range_keys in Hin as [h Hh]. unfold ResourceID in *. rewrite Hh.
    apply hosts_map_lookup in Hh as [?|Hh]; [done|]. by rewrite lookup_empty in Hh.
Qed.

(** ** Fail-fast execution *)

Lemma executeAction_state_frame E e a sm w x err sm' w' :
  wf_graph (e_graph e) →
  executeAction E e a sm w = (x, err, sm', w') →
  ∀ id, id ≠ ActResourceID a → state sm' !! id = state sm !! id.
Proof.
  intros [_ Hid] Hx. apply executeAction_inv in Hx as (_ & _ & _ & Hres).
  unfold GetResource in Hres.
  destruct (nodes (e_graph e) !! ActResourceID a) as [r|] eqn:Hr.
  - destruct Hres as [Hst _]. by rewrite <- (Hid _ r Hr).
  - by destruct Hres as [-> _].
Qed.

Lemma executeAction_applies E e a sm w x sm' w' :
  wf_graph (e_graph e) →
  executeAction E e a sm w = (x, None, sm', w') →
  ActType a ≠ ActionNoOp →
  ∃ st, state sm' !! ActResourceID a = Some st ∧ Status st = StateApplied.
Proof.
  intros [_ Hid] Hx Hty. apply executeAction_inv in Hx as (_ & _ & _ & Hres).
  unfold GetResource in Hres.
  destruct (nodes (e_graph e) !! ActResourceID a) as [r|] eqn:Hr;
    [|by destruct Hres as [_ [? ?]]].
  destruct Hres as [_ [(? & _)|[(_ & [? ?])|(_ & _ & w1 & w2 & HA)]]]; [done..|].
  apply MarkApplied_effect in HA as (_ & _ & [[_ [? ?]]|(bytes & Hb & Hst)]); [done|].
  rewrite Hst, <- (Hid _ r Hr), lookup_insert_eq. by eexists.
Qed.

Lemma execute_actions_fail_fast E e actions done_ sm w done' fail sm' w' :
  wf_graph (e_graph e) →
  NoDup (ActResourceID <$> actions) →
  execute_actions E e actions done_ sm w = (done', fail, sm', w') →
  ∃ outs, done' = done_ ++ outs ∧
    (∀ b, b ∈ take (length outs) actions → ActType b ≠ ActionNoOp →
          ∃ st, state sm' !! ActResourceID b = Some st ∧ Status st = StateApplied) ∧
    (∀ b, b ∈ drop (S (length outs)) actions →
          state sm' !! ActResourceID b = state sm !! ActResourceID b).
Proof.
  intros Hwf. revert done_ sm w.
  induction actions as [|a actions IH]; intros done_ sm w Hnd; cbn [execute_actions].
  - intros [= <- _ <- _]. exists []. rewrite app_nil_r. split; [done|].
    split; intros b Hb; by apply elem_of_nil in Hb.
  - rewrite fmap_cons in Hnd. apply NoDup_cons in Hnd as [Hfresh Hnd].
    assert (∀ b, b ∈ actions → ActResourceID b ≠ ActResourceID a) as Hne.
    { intros b Hb Heq. apply Hfresh. rewrite <- Heq. by apply list_elem_of_fmap_2. }
    destruct (executeAction E e a sm w) as [[[x [err|]] sm1] w1] eqn:Hx.
    + intros [= <- _ <- _]. exists []. rewrite app_nil_r. split; [done|]. split.
      * intros b Hb. by apply elem_of_nil in Hb.
      * cbn [length drop]. intros b Hb.
        eapply executeAction_state_frame; [done|exact Hx|by apply Hne].
    + intros Hrun.
      pose proof (execute_actions_frame _ _ _ _ _ _ _ _ _ _ Hwf Hrun) as (_ & _ & Hframe).
      destruct (IH _ _ _ Hnd Hrun) as (outs & -> & Happ & Hlater).
      exists (x :: outs). rewrite <- app_assoc. split; [done|]. cbn [length take drop].
      split.
      * intros b [->|Hb]%elem_of_cons Hty; [|by apply Happ].
        rewrite Hframe by done. by eapply executeAction_applies.
      * intros b Hb. rewrite (Hlater b Hb).
        eapply executeAction_state_frame; [done|exact Hx|].
        apply Hne. by eapply subseteq_drop.
Qed.

(** X24: execution is fail-fast and never rolls back.  On a graph built
    through the API, for a plan naming each resource once: when [Execute]
    stops at an action, the entries of the actions after it are as they
    were before the run, and every Create, Update or Delete before it has
    left its resource recorded as Applied. *)
Theorem Execute_fail_fast E v e plan sm w res err sm' w' :
  wf_graph (e_graph e) →
  NoDup (ActResourceID <$> Actions plan) →
  Execute E v e plan sm w = (Some res, err, sm', w') →
  (∀ b, b ∈ take (length (ResActions res)) (Actions plan) →
        ActType b ≠ ActionNoOp →
        ∃ st, state sm' !! ActResourceID b = Some st ∧ Status st = StateApplied) ∧
  (∀ b, b ∈ drop (S (length (ResActions res))) (Actions plan) →
        state sm' !! ActResourceID b = state sm !! ActResourceID b).
Proof.
  intros Hwf Hnd. unfold Execute. cbn [time_Now].
  destruct (ValidatePlan v plan); [done|].
  destruct (execute_actions E e (Actions plan) [] sm _)
    as [[[done' fail] sm1] w1] eqn:Hrun.
  destruct (execute_actions_fail_fast _ _ _ _ _ _ _ _ _ _ Hwf Hnd Hrun)
    as (outs & -> & Happ & Hlater).
  rewrite app_nil_l. destruct fail as [[id msg]|]; intros [= <- _ <- _]; done.
Qed.

Lemma Execute_fail_fast_witness :
  (∀ b, b ∈ take 1 (Actions plan_three) → ActType b ≠ ActionNoOp →
        ∃ st, state run_three.1.2 !! ActResourceID b = Some st ∧
              Status st = StateApplied) ∧
  (∀ b, b ∈ drop 2 (Actions plan_three) →
        state run_three.1.2 !! ActResourceID b =
        state (NewStateManager ".settle/state.json" g_three) !! ActResourceID b).
Proof.
  apply (Execute_fail_fast env_ok vs_id executor_three plan_three
           (NewStateManager ".settle/state.json" g_three) world0
           (default {| ResPlan := plan_three; ResStartedAt := 0; ResCompletedAt := None;
                       ResFailedAt := None; Success := false; ResError := None;
                       ResActions := [] |} run_three.1.1.1)
           run_three.1.1.2 run_three.1.2 run_three.2 g_three_wf).
  - vm_compute. repeat constructor; set_solver.
  - vm_compute. reflexivity.
Defined.
